(** * itensor/index.h : Index and IndexVal

    A shallow embedding of the [Index] and [IndexVal] classes of
    [itensor/index.h] and of the free function templates [prime],
    [noprime] and [mapPrime].

    - C++ [int], [long] and [IDType] values are integers of [Z]; the
      arithmetic on [int] is written with its two's complement wrap-around.
    - [Error(msg)] (declared in global.h) is the outcome [Fatal msg].
    - The blocks under [#ifdef DEBUG] are guarded by a boolean [DEBUG].
    - Objects live in a store; a member function receives the reference
      [this] and a member returning [*this] returns that reference.  *)

From Stdlib Require Import ZArith Lia List Bool Ascii String.
From Stdlib Require Import Strings.Byte.
From Stdlib Require Import Permutation Sorted.
From stdpp Require Import base decidable option gmap strings list.

Local Open Scope Z_scope.

(** ** Machine integers *)

Definition int_bytes : nat := 4.
Definition long_bytes : nat := 8.

Definition INT_MIN : Z := - 2 ^ 31.
Definition INT_MAX : Z := 2 ^ 31 - 1.
Definition LONG_MIN : Z := - 2 ^ 63.
Definition LONG_MAX : Z := 2 ^ 63 - 1.

Definition in_int (z : Z) : Prop := INT_MIN <= z <= INT_MAX.
Definition in_long (z : Z) : Prop := LONG_MIN <= z <= LONG_MAX.

(** The value an [int] holds after an arithmetic result [z]. *)
Definition wrap_int (z : Z) : Z := (z + 2 ^ 31) mod 2 ^ 32 - 2 ^ 31.

Definition int_add (a b : Z) : Z := wrap_int (a + b).
Definition int_neg (a : Z) : Z := wrap_int (- a).

(** ** enum IndexType *)

Inductive IndexType : Set :=
  Link | Site | All | NullIndex | Xind | Yind | Zind | Wind | Vind.

#[global] Instance IndexType_eq_dec : EqDecision IndexType.
Proof. solve_decision. Defined.

(** ** class Index : the private data members *)

Record Index : Type := mkIndex {
  id_ : Z;
  primelevel_ : Z;
  m_ : Z;
  type_ : IndexType;
  sname_ : string
}.

Definition set_primelevel_ (x : Index) (p : Z) : Index :=
  mkIndex (id_ x) p (m_ x) (type_ x) (sname_ x).

(** *** Accessor methods *)

Definition Index_m (x : Index) : Z := m_ x.
Definition Index_primeLevel (x : Index) : Z := primelevel_ x.
Definition Index_type (x : Index) : IndexType := type_ x.
Definition Index_rawname (x : Index) : string := sname_ x.
Definition Index_id (x : Index) : Z := id_ x.

(** [explicit operator bool() const { return (type_!=NullIndex); }] *)
Definition Index_bool (x : Index) : bool :=
  negb (bool_decide (type_ x = NullIndex)).

(** *** Operators *)

(** [return (id_ == other.id_) && (primelevel_ == other.primelevel_);] *)
Definition Index_eq (x other : Index) : bool :=
  (id_ x =? id_ other) && (primelevel_ x =? primelevel_ other).

(** [return !operator==(other);] *)
Definition Index_ne (x other : Index) : bool := negb (Index_eq x other).

(** [return (id_ == other.id_);] *)
Definition Index_noprimeEquals (x other : Index) : bool :=
  id_ x =? id_ other.

Definition Index_gt (x other : Index) : bool :=
  if m_ x =? m_ other then
    if id_ x =? id_ other then primelevel_ x >? primelevel_ other
    else id_ x >? id_ other
  else m_ x >? m_ other.

Definition Index_lt (x other : Index) : bool :=
  if m_ x =? m_ other then
    if id_ x =? id_ other then primelevel_ x <? primelevel_ other
    else id_ x <? id_ other
  else m_ x <? m_ other.

(** ** Outcomes of a call *)

Inductive Result (A : Type) : Type :=
| Ok (a : A)            (* normal return *)
| Fatal (msg : string)  (* [Error(msg)] was called *)
| Invalid.              (* a reference that denotes no object was used *)
Arguments Ok {A} a.
Arguments Fatal {A} msg.
Arguments Invalid {A}.

(** *** The constructors of Index *)

(** [Index() : id_(0), primelevel_(0), m_(1), type_(NullIndex) { }];
    [sname_] is default-initialised to the empty string. *)
Definition Index_default : Index := mkIndex 0 0 1 NullIndex EmptyString.

(** [generateID()] draws from a function-local static [mt19937],
    [return rng();].  The generator is not part of this repository, so
    its state type [G] and its step [rng] are parameters. *)
Definition generateID {G : Type} (rng : G -> Z * G) (g : G) : Z * G := rng g.

(** [Index(name, m, type, plev)]: the member initialisers run first
    (drawing the id), then the checks under [#ifdef DEBUG]. *)
Definition Index_ctor {G : Type} (rng : G -> Z * G) (DEBUG : bool)
    (name : string) (m : Z) (type : IndexType) (plev : Z) (g : G)
  : Result (Index * G) :=
  let '(id, g') := generateID rng g in
  let this := mkIndex id plev m type name in
  if DEBUG && bool_decide (type_ this = All)
  then Fatal "Constructing Index with type All disallowed"
  else if DEBUG && bool_decide (type_ this = NullIndex)
  then Fatal "Constructing Index with type NullIndex disallowed"
  else Ok (this, g').

(** The default arguments [m = 1], [it = Link], [primelev = 0]. *)
Definition Index_ctor_name_m {G : Type} (rng : G -> Z * G) (DEBUG : bool)
    (name : string) (m : Z) (g : G) : Result (Index * G) :=
  Index_ctor rng DEBUG name m Link 0 g.

(** ** class IndexVal : the public data members *)

Record IndexVal : Type := mkIndexVal {
  index : Index;
  val : Z
}.

(** [long m() const { return index.m(); }] *)
Definition IndexVal_m (iv : IndexVal) : Z := Index_m (index iv).

(** [explicit operator bool() const { return bool(index); }] *)
Definition IndexVal_bool (iv : IndexVal) : bool := Index_bool (index iv).

(** [bool operator==(const Index& I) const { return index == I; }] *)
Definition IndexVal_eq_Index (iv : IndexVal) (I : Index) : bool :=
  Index_eq (index iv) I.

(** [operator==(const Index& I, const IndexVal& iv)] *)
Definition Index_eq_IndexVal (I : Index) (iv : IndexVal) : bool :=
  IndexVal_eq_Index iv I.

(** ** The object store *)

Inductive object : Type :=
| OIndex (x : Index)
| OIndexVal (iv : IndexVal).

Definition loc : Type := positive.

(** A reference to an Index denotes a complete object or the data member
    [index] of an IndexVal object. *)
Inductive ref : Type :=
| Obj (l : loc)
| Member_index (l : loc).

Definition M (A : Type) : Type :=
  gmap loc object -> Result (A * gmap loc object).

Definition ret {A : Type} (a : A) : M A := fun h => Ok (a, h).

Definition bind {A B : Type} (c : M A) (k : A -> M B) : M B :=
  fun h =>
    match c h with
    | Ok (a, h') => k a h'
    | Fatal msg => Fatal msg
    | Invalid => Invalid
    end.

Notation "x <-- c ;; k" := (bind c (fun x => k))
  (at level 100, c at next level, right associativity).
Notation "c ;;; k" := (bind c (fun _ => k))
  (at level 100, right associativity).

(** [Error(msg)] of global.h: the call does not return. *)
Definition Error {A : Type} (msg : string) : M A := fun _ => Fatal msg.

Definition get_Index (r : ref) : M Index :=
  fun h =>
    match r with
    | Obj l =>
        match h !! l with Some (OIndex x) => Ok (x, h) | _ => Invalid end
    | Member_index l =>
        match h !! l with
        | Some (OIndexVal iv) => Ok (index iv, h)
        | _ => Invalid
        end
    end.

Definition put_Index (r : ref) (x : Index) : M unit :=
  fun h =>
    match r with
    | Obj l =>
        match h !! l with
        | Some (OIndex _) => Ok (tt, <[l := OIndex x]> h)
        | _ => Invalid
        end
    | Member_index l =>
        match h !! l with
        | Some (OIndexVal iv) =>
            Ok (tt, <[l := OIndexVal (mkIndexVal x (val iv))]> h)
        | _ => Invalid
        end
    end.

(** The store after [put_Index r x]. *)
Definition updated (r : ref) (x : Index) (h : gmap loc object)
  : gmap loc object :=
  match r with
  | Obj l => <[l := OIndex x]> h
  | Member_index l =>
      match h !! l with
      | Some (OIndexVal iv) => <[l := OIndexVal (mkIndexVal x (val iv))]> h
      | _ => h
      end
  end.

(** ** Prime level methods of Index *)

(** [Index& Index::prime(int inc)]:
    [primelevel_ += inc;] then, under DEBUG,
    [if(primelevel_ < 0) Error("Negative primeLevel");] then
    [return *this;]. *)
Definition Index_prime (DEBUG : bool) (this : ref) (inc : Z) : M ref :=
  x <-- get_Index this ;;
  put_Index this (set_primelevel_ x (int_add (primelevel_ x) inc)) ;;;
  (if DEBUG then
     x' <-- get_Index this ;;
     if primelevel_ x' <? 0 then Error "Negative primeLevel" else ret tt
   else ret tt) ;;;
  ret this.

(** Modelled from the spec: [Index& Index::prime(IndexType type, int inc)]
    is declared in index.h and defined outside of it.  It "adds inc only
    if this Index's type equals the given type or the given type is the
    wildcard All; otherwise a no-op". *)
Definition Index_prime_type (this : ref) (type : IndexType) (inc : Z)
  : M ref :=
  x <-- get_Index this ;;
  (if bool_decide (type_ x = type) || bool_decide (type = All)
   then put_Index this (set_primelevel_ x (int_add (primelevel_ x) inc))
   else ret tt) ;;;
  ret this.

(** [Index& noprime(IndexType type = All)
       { prime(type,-primelevel_); return *this; }] *)
Definition Index_noprime (this : ref) (type : IndexType) : M ref :=
  x <-- get_Index this ;;
  Index_prime_type this type (int_neg (primelevel_ x)) ;;;
  ret this.

(** Modelled from the spec: [Index& Index::mapprime(int plevold, int
    plevnew, IndexType type)] is declared in index.h and defined outside
    of it.  It "switches primeLevel from exactly plevold to plevnew when
    both the current level equals plevold and the type matches; otherwise
    a no-op (current level and name are left untouched)". *)
Definition Index_mapprime (this : ref) (plevold plevnew : Z)
    (type : IndexType) : M ref :=
  x <-- get_Index this ;;
  (if (primelevel_ x =? plevold) &&
      (bool_decide (type_ x = type) || bool_decide (type = All))
   then put_Index this (set_primelevel_ x plevnew)
   else ret tt) ;;;
  ret this.

(** Modelled from the spec: [std::string Index::name() const] is declared
    in index.h and defined outside of it.  The display form "appends
    prime markers derived from primeLevel", "trailing prime marks
    proportional to primeLevel". *)
Definition Index_name (x : Index) : string :=
  sname_ x +:+ string_of_list_ascii (repeat "'"%char (Z.to_nat (primelevel_ x))).

(** ** Prime level methods of IndexVal *)

(** [IndexVal& prime(int inc = 1) { index.prime(inc); return *this; }] *)
Definition IndexVal_prime (DEBUG : bool) (this : loc) (inc : Z) : M loc :=
  Index_prime DEBUG (Member_index this) inc ;;; ret this.

(** [IndexVal& prime(IndexType type, int inc = 1)
       { index.prime(type,inc); return *this; }] *)
Definition IndexVal_prime_type (this : loc) (type : IndexType) (inc : Z)
  : M loc :=
  Index_prime_type (Member_index this) type inc ;;; ret this.

(** [IndexVal& noprime(IndexType type = All)
       { index.noprime(type); return *this; }] *)
Definition IndexVal_noprime (this : loc) (type : IndexType) : M loc :=
  Index_noprime (Member_index this) type ;;; ret this.

(** [IndexVal& mapprime(int plevold, int plevnew, IndexType type = All)
       { index.mapprime(plevold,plevnew,type); return *this; }] *)
Definition IndexVal_mapprime (this : loc) (plevold plevnew : Z)
    (type : IndexType) : M loc :=
  Index_mapprime (Member_index this) plevold plevnew type ;;; ret this.

(** ** The free function templates *)

(** What the templates need of their type parameter [T]: objects of type
    [T] can be stored, and [T] has the four prime level methods. *)
Class PrimeLevel (T : Type) : Type := {
  to_object : T -> object;
  of_object : object -> option T;
  T_prime : bool -> loc -> Z -> M unit;
  T_prime_type : loc -> IndexType -> Z -> M unit;
  T_noprime : loc -> IndexType -> M unit;
  T_mapprime : loc -> Z -> Z -> IndexType -> M unit
}.

#[global] Instance PrimeLevel_Index : PrimeLevel Index := {
  to_object := OIndex;
  of_object := fun o => match o with OIndex x => Some x | _ => None end;
  T_prime := fun DEBUG l inc => Index_prime DEBUG (Obj l) inc ;;; ret tt;
  T_prime_type := fun l t inc => Index_prime_type (Obj l) t inc ;;; ret tt;
  T_noprime := fun l t => Index_noprime (Obj l) t ;;; ret tt;
  T_mapprime := fun l a b t => Index_mapprime (Obj l) a b t ;;; ret tt
}.

#[global] Instance PrimeLevel_IndexVal : PrimeLevel IndexVal := {
  to_object := OIndexVal;
  of_object := fun o => match o with OIndexVal iv => Some iv | _ => None end;
  T_prime := fun DEBUG l inc => IndexVal_prime DEBUG l inc ;;; ret tt;
  T_prime_type := fun l t inc => IndexVal_prime_type l t inc ;;; ret tt;
  T_noprime := fun l t => IndexVal_noprime l t ;;; ret tt;
  T_mapprime := fun l a b t => IndexVal_mapprime l a b t ;;; ret tt
}.

(** Reading the value of the object at [l]. *)
Definition value_at {T : Type} `{PrimeLevel T} (l : loc) : M T :=
  fun h =>
    match h !! l with
    | Some o => match of_object o with Some v => Ok (v, h) | None => Invalid end
    | None => Invalid
    end.

(** A by-value parameter: a new object initialised with a copy of [v]. *)
Definition new_param {T : Type} `{PrimeLevel T} (v : T) : M loc :=
  fun h => let l := fresh (dom h) in Ok (l, <[l := to_object v]> h).

(** The end of the lifetime of a parameter. *)
Definition end_param (l : loc) : M unit :=
  fun h => Ok (tt, delete l h).

(** [template<class T> T prime(T I, int inc = 1)
       { I.prime(inc); return I; }] *)
Definition prime {T : Type} `{PrimeLevel T} (DEBUG : bool) (arg : T)
    (inc : Z) : M T :=
  I <-- new_param arg ;;
  T_prime (T := T) DEBUG I inc ;;;
  r <-- value_at I ;;
  end_param I ;;;
  ret r.

(** [template<class T> T prime(T I, IndexType type, int inc = 1)
       { I.prime(type,inc); return I; }] *)
Definition prime_type {T : Type} `{PrimeLevel T} (arg : T)
    (type : IndexType) (inc : Z) : M T :=
  I <-- new_param arg ;;
  T_prime_type (T := T) I type inc ;;;
  r <-- value_at I ;;
  end_param I ;;;
  ret r.

(** [template<class T> T noprime(T I, IndexType type = All)
       { I.noprime(type); return I; }] *)
Definition noprime {T : Type} `{PrimeLevel T} (arg : T) (type : IndexType)
  : M T :=
  I <-- new_param arg ;;
  T_noprime (T := T) I type ;;;
  r <-- value_at I ;;
  end_param I ;;;
  ret r.

(** [template<class T> T mapPrime(T I, int plevold, int plevnew,
       IndexType type = All) { I.mapprime(plevold,plevnew,type); return I; }] *)
Definition mapPrime {T : Type} `{PrimeLevel T} (arg : T)
    (plevold plevnew : Z) (type : IndexType) : M T :=
  I <-- new_param arg ;;
  T_mapprime (T := T) I plevold plevnew type ;;;
  r <-- value_at I ;;
  end_param I ;;;
  ret r.

(** A call [f(a)] whose argument is the object at [a]: the argument is
    copied into the parameter. *)
Definition call_with {T : Type} `{PrimeLevel T} (f : T -> M T) (a : loc)
  : M T :=
  v <-- value_at a ;; f v.

(** ** The effect of the methods on values *)

(** The complete object that [r] refers into. *)
Definition object_of (r : ref) : loc :=
  match r with Obj l => l | Member_index l => l end.

(** The effect of the prime level methods on the value of [*this]. *)

Definition prime_value (DEBUG : bool) (inc : Z) (x : Index) : Result Index :=
  let x' := set_primelevel_ x (int_add (primelevel_ x) inc) in
  if DEBUG && (primelevel_ x' <? 0) then Fatal "Negative primeLevel"
  else Ok x'.

Definition prime_type_value (type : IndexType) (inc : Z) (x : Index)
  : Index :=
  if bool_decide (type_ x = type) || bool_decide (type = All)
  then set_primelevel_ x (int_add (primelevel_ x) inc) else x.

Definition noprime_value (type : IndexType) (x : Index) : Index :=
  if bool_decide (type_ x = type) || bool_decide (type = All)
  then set_primelevel_ x 0 else x.

Definition mapprime_value (plevold plevnew : Z) (type : IndexType)
    (x : Index) : Index :=
  if (primelevel_ x =? plevold) &&
     (bool_decide (type_ x = type) || bool_decide (type = All))
  then set_primelevel_ x plevnew else x.

(** The same effect on the member [index] of an IndexVal. *)
Definition on_index (f : Index -> Result Index) (iv : IndexVal)
  : Result IndexVal :=
  match f (index iv) with
  | Ok x' => Ok (mkIndexVal x' (val iv))
  | Fatal msg => Fatal msg
  | Invalid => Invalid
  end.

(** A member call [body] whose effect on the value of the object at [l]
    is [f]. *)
Definition acts_as {T : Type} `{PrimeLevel T} (body : loc -> M unit)
    (f : T -> Result T) : Prop :=
  forall (l : loc) (h : gmap loc object) (v : T),
    h !! l = Some (to_object v) ->
    body l h =
      match f v with
      | Ok v' => Ok (tt, <[l := to_object v']> h)
      | Fatal msg => Fatal msg
      | Invalid => Invalid
      end.

(** The outcome of a free function whose member has the effect [f]. *)
Definition by_value {T : Type} (f : T -> Result T) (arg : T)
    (h : gmap loc object) : Result (T * gmap loc object) :=
  match f arg with
  | Ok v' => Ok (v', h)
  | Fatal msg => Fatal msg
  | Invalid => Invalid
  end.

(** ** Binary codec *)

(** The format of the stream, from the spec: "Binary persisted format
    (fixed field order, no versioning tag in this core): id (unsigned
    integer), primeLevel (signed integer), m (integer), type (integer
    ordinal of the type enumeration), name (length-prefixed byte
    sequence)."  Integers are written in the width of their C++ type,
    least significant byte first: [int] and the enumeration in 4 bytes,
    [long] in 8 bytes, the length prefix as an [int]; [IDType] is
    [mt19937::result_type], whose width [IDType_bytes] is a parameter. *)

Definition byte_of_Z (z : Z) : byte :=
  match Byte.of_N (Z.to_N z) with Some b => b | None => x00 end.

Definition Z_of_byte (b : byte) : Z := Z.of_N (Byte.to_N b).

Fixpoint le_bytes (n : nat) (z : Z) : list byte :=
  match n with
  | O => []
  | S n' => byte_of_Z (z mod 256) :: le_bytes n' (z / 256)
  end.

Fixpoint le_value (bs : list byte) : Z :=
  match bs with
  | [] => 0
  | b :: bs' => Z_of_byte b + 256 * le_value bs'
  end.

Definition encode_unsigned (n : nat) (z : Z) : list byte := le_bytes n z.

Definition encode_signed (n : nat) (z : Z) : list byte :=
  le_bytes n (z mod 2 ^ (8 * Z.of_nat n)).

(** Takes [n] bytes off the stream; fails on a truncated stream. *)
Definition take_bytes (n : nat) (s : list byte)
  : option (list byte * list byte) :=
  if (n <=? length s)%nat then Some (firstn n s, skipn n s) else None.

Definition decode_unsigned (n : nat) (s : list byte)
  : option (Z * list byte) :=
  match take_bytes n s with
  | Some (bs, rest) => Some (le_value bs, rest)
  | None => None
  end.

Definition decode_signed (n : nat) (s : list byte)
  : option (Z * list byte) :=
  match take_bytes n s with
  | Some (bs, rest) =>
      let u := le_value bs in
      Some (if 2 * u <? 2 ^ (8 * Z.of_nat n) then u
            else u - 2 ^ (8 * Z.of_nat n), rest)
  | None => None
  end.

(** The ordinal of an enumerator of [IndexType]. *)
Definition IndexType_ordinal (t : IndexType) : Z :=
  match t with
  | Link => 0 | Site => 1 | All => 2 | NullIndex => 3 | Xind => 4
  | Yind => 5 | Zind => 6 | Wind => 7 | Vind => 8
  end.

Definition IndexType_of_ordinal (z : Z) : option IndexType :=
  match z with
  | 0 => Some Link | 1 => Some Site | 2 => Some All | 3 => Some NullIndex
  | 4 => Some Xind | 5 => Some Yind | 6 => Some Zind | 7 => Some Wind
  | 8 => Some Vind | _ => None
  end.

(** Modelled from the spec: [void Index::write(std::ostream& s) const]
    is declared in index.h and defined outside of it.  It serialises "in
    a fixed field order, the complete persistent state of an Index:
    identifier, prime level, dimension, type tag, and name
    (length-prefixed)"; the bytes are appended to the stream. *)
Definition Index_write (IDType_bytes : nat) (x : Index) (s : list byte)
  : list byte :=
  s ++ encode_unsigned IDType_bytes (id_ x)
    ++ encode_signed int_bytes (primelevel_ x)
    ++ encode_signed long_bytes (m_ x)
    ++ encode_signed int_bytes (IndexType_ordinal (type_ x))
    ++ encode_signed int_bytes (Z.of_nat (String.length (sname_ x)))
    ++ list_byte_of_string (sname_ x).

(** Modelled from the spec: [Index& Index::read(std::istream& s)] is
    declared in index.h and defined outside of it.  It reads the fields
    in the order [write] wrote them; every data member of [*this] is
    overwritten, so the result is the new state of [*this] and the rest
    of the stream.  "Truncated or corrupt stream content during read must
    surface as a stream-level failure rather than silently yielding a
    corrupted Index": the answer is [None] then. *)
Definition Index_read (IDType_bytes : nat) (s : list byte)
  : option (Index * list byte) :=
  match decode_unsigned IDType_bytes s with
  | None => None
  | Some (id, s1) =>
  match decode_signed int_bytes s1 with
  | None => None
  | Some (plev, s2) =>
  match decode_signed long_bytes s2 with
  | None => None
  | Some (m, s3) =>
  match decode_signed int_bytes s3 with
  | None => None
  | Some (ord, s4) =>
  match IndexType_of_ordinal ord with
  | None => None
  | Some type =>
  match decode_signed int_bytes s4 with
  | None => None
  | Some (len, s5) =>
      if len <? 0 then None
      else
        match take_bytes (Z.to_nat len) s5 with
        | None => None
        | Some (bs, rest) =>
            Some (mkIndex id plev m type (string_of_list_byte bs), rest)
        end
  end end end end end end.

(** The values an Index object can hold: every data member lies in the
    range of its C++ type, and the length of the name in that of the
    length prefix. *)
Definition Index_representable (IDType_bytes : nat) (x : Index) : Prop :=
  0 <= id_ x < 2 ^ (8 * Z.of_nat IDType_bytes) /\
  in_int (primelevel_ x) /\
  in_long (m_ x) /\
  Z.of_nat (String.length (sname_ x)) <= INT_MAX.

(** ** Sorting with [operator<] *)

(** The key that [operator<] and [operator>] compare. *)
Definition sort_key (x : Index) : Z * Z * Z := (m_ x, id_ x, primelevel_ x).

(** Ascending by the first component, on a tie by the second, on a tie
    by the third. *)
Definition key_lt (k k' : Z * Z * Z) : Prop :=
  let '(m, i, p) := k in
  let '(m', i', p') := k' in
  m < m' \/ (m = m' /\ (i < i' \/ (i = i' /\ p < p'))).

(** What a comparison sort with comparator [Index_lt] establishes: no
    element is smaller than an element before it. *)
Definition sorted_by_lt (l : list Index) : Prop :=
  StronglySorted (fun a b => Index_lt b a = false) l.

Definition ascending (l : list Index) : Prop :=
  StronglySorted (fun a b => key_lt (sort_key a) (sort_key b)) l.

(** An insertion sort that compares with [operator<] only. *)
Fixpoint insert_by_lt (x : Index) (l : list Index) : list Index :=
  match l with
  | [] => [x]
  | y :: l' => if Index_lt x y then x :: y :: l' else y :: insert_by_lt x l'
  end.

Fixpoint sort_by_lt (l : list Index) : list Index :=
  match l with
  | [] => []
  | x :: l' => insert_by_lt x (sort_by_lt l')
  end.

(** ** Conversions, [dag] *)

(** [explicit operator int() const { return m(); }]: the [long] that
    [m()] returns is converted to [int]. *)
Definition Index_int (x : Index) : Z := wrap_int (Index_m x).

(** [explicit operator long() const { return m(); }] *)
Definition Index_long (x : Index) : Z := Index_m x.

(** [void dag() { }] of Index. *)
Definition Index_dag (this : ref) : M unit := ret tt.

(** [void dag() { }] of IndexVal. *)
Definition IndexVal_dag (this : loc) : M unit := ret tt.

(** [Index inline dag(Index res) { res.dag(); return res; }] *)
Definition dag_Index (arg : Index) : M Index :=
  res <-- new_param arg ;;
  Index_dag (Obj res) ;;;
  r <-- value_at res ;;
  end_param res ;;;
  ret r.

(** [IndexVal inline dag(IndexVal res) { res.dag(); return res; }] *)
Definition dag_IndexVal (arg : IndexVal) : M IndexVal :=
  res <-- new_param arg ;;
  IndexVal_dag res ;;;
  r <-- value_at res ;;
  end_param res ;;;
  ret r.

(** ** Theorems on the comparison operators *)

(** C1: [a == b] holds exactly when the ids are equal and the prime
    levels are equal; the fields m, type and name do not influence the
    result; [a != b] is the negation of [a == b]. *)
Theorem Index_eq_iff_id_and_primeLevel :
  (forall a b : Index,
      Index_eq a b = true <->
      Index_id a = Index_id b /\ Index_primeLevel a = Index_primeLevel b) /\
  (forall (i p : Z) (i' p' : Z) (m1 m2 m1' m2' : Z) (t1 t2 t1' t2' : IndexType)
          (n1 n2 n1' n2' : string),
      Index_eq (mkIndex i p m1 t1 n1) (mkIndex i' p' m2 t2 n2) =
      Index_eq (mkIndex i p m1' t1' n1') (mkIndex i' p' m2' t2' n2')) /\
  (forall a b : Index, Index_ne a b = negb (Index_eq a b)) /\
  (forall a b : Index, Index_ne a b = true <-> ~ (Index_eq a b = true)).
Proof.
  split; [|split; [|split]].
  - intros a b. unfold Index_eq, Index_id, Index_primeLevel.
    rewrite andb_true_iff, !Z.eqb_eq. reflexivity.
  - reflexivity.
  - reflexivity.
  - intros a b. unfold Index_ne. destruct (Index_eq a b); simpl.
    + split; [discriminate | intros H; now destruct H].
    + split; [discriminate | reflexivity].
Qed.

(** ** The strict order of [operator<] *)

Section Ordering.

Implicit Types a b c : Index.

Lemma Index_lt_spec a b :
  Index_lt a b = true <-> key_lt (sort_key a) (sort_key b).
Proof.
  unfold Index_lt, key_lt, sort_key.
  destruct (Z.eqb_spec (m_ a) (m_ b)), (Z.eqb_spec (id_ a) (id_ b));
    rewrite Z.ltb_lt; lia.
Qed.

Lemma Index_lt_false_spec a b :
  Index_lt a b = false <-> ~ key_lt (sort_key a) (sort_key b).
Proof.
  rewrite <- Index_lt_spec. destruct (Index_lt a b); split; congruence.
Qed.

Lemma Index_gt_mirror a b : Index_gt a b = Index_lt b a.
Proof.
  unfold Index_gt, Index_lt.
  rewrite (Z.eqb_sym (m_ a)), (Z.eqb_sym (id_ a)), !Z.gtb_ltb.
  reflexivity.
Qed.

Lemma key_lt_trans k1 k2 k3 : key_lt k1 k2 -> key_lt k2 k3 -> key_lt k1 k3.
Proof.
  destruct k1 as [[m1 i1] p1], k2 as [[m2 i2] p2], k3 as [[m3 i3] p3].
  unfold key_lt. lia.
Qed.

Lemma key_lt_asym k1 k2 : key_lt k1 k2 -> ~ key_lt k2 k1.
Proof.
  destruct k1 as [[m1 i1] p1], k2 as [[m2 i2] p2]. unfold key_lt. lia.
Qed.

Lemma key_lt_trichotomy k1 k2 : key_lt k1 k2 \/ k1 = k2 \/ key_lt k2 k1.
Proof.
  destruct k1 as [[m1 i1] p1], k2 as [[m2 i2] p2]. unfold key_lt.
  destruct (Z.lt_trichotomy m1 m2) as [?|[->|?]]; [lia| |lia].
  destruct (Z.lt_trichotomy i1 i2) as [?|[->|?]]; [lia| |lia].
  destruct (Z.lt_trichotomy p1 p2) as [?|[->|?]]; [lia| |lia].
  right; left; reflexivity.
Qed.

Lemma Index_lt_trans a b c :
  Index_lt a b = true -> Index_lt b c = true -> Index_lt a c = true.
Proof. rewrite !Index_lt_spec. apply key_lt_trans. Qed.

Lemma Index_lt_asym a b : Index_lt a b = true -> Index_lt b a = false.
Proof. rewrite Index_lt_spec, Index_lt_false_spec. apply key_lt_asym. Qed.

Lemma Index_lt_irrefl a : Index_lt a a = false.
Proof.
  destruct (Index_lt a a) eqn:E; [|reflexivity].
  pose proof (Index_lt_asym _ _ E). congruence.
Qed.

(** Incomparable elements can be exchanged on the right of [<]. *)
Lemma Index_lt_false_trans a b c :
  Index_lt b a = false -> Index_lt c b = false -> Index_lt c a = false.
Proof.
  rewrite !Index_lt_false_spec. intros Hba Hcb Hca.
  destruct (key_lt_trichotomy (sort_key a) (sort_key b)) as [H|[H|H]].
  - apply Hcb. eapply key_lt_trans; eassumption.
  - apply Hcb. rewrite <- H. exact Hca.
  - contradiction.
Qed.

End Ordering.

(** ** Sorting *)

Lemma insert_by_lt_Permutation x l : Permutation (x :: l) (insert_by_lt x l).
Proof.
  induction l as [|y l IH]; simpl; [reflexivity|].
  destruct (Index_lt x y); [reflexivity|].
  rewrite perm_swap. apply perm_skip. exact IH.
Qed.

Lemma sort_by_lt_Permutation l : Permutation l (sort_by_lt l).
Proof.
  induction l as [|x l IH]; simpl; [reflexivity|].
  rewrite <- insert_by_lt_Permutation. apply perm_skip. exact IH.
Qed.

Lemma insert_by_lt_sorted x l :
  sorted_by_lt l -> sorted_by_lt (insert_by_lt x l).
Proof.
  unfold sorted_by_lt. induction 1 as [|y l Hs IH Hy]; simpl.
  - repeat constructor.
  - destruct (Index_lt x y) eqn:E.
    + constructor; [constructor; assumption|].
      constructor; [apply Index_lt_asym; exact E|].
      eapply Forall_impl; [exact Hy|]. simpl. intros z Hz.
      apply Index_lt_false_trans with (b := y);
        [apply Index_lt_asym; exact E | exact Hz].
    + constructor; [exact IH|].
      apply (Permutation_Forall (insert_by_lt_Permutation x l)).
      constructor; assumption.
Qed.

Lemma sort_by_lt_sorted l : sorted_by_lt (sort_by_lt l).
Proof.
  induction l as [|x l IH]; simpl; [constructor|].
  apply insert_by_lt_sorted. exact IH.
Qed.

Lemma sorted_distinct_ascending l :
  NoDup (sort_key <$> l) -> sorted_by_lt l -> ascending l.
Proof.
  unfold sorted_by_lt, ascending. intros Hnd Hs. revert Hnd.
  induction Hs as [|x l Hs IH Hx]; intros Hnd; [constructor|].
  rewrite fmap_cons in Hnd. apply NoDup_cons in Hnd as [Hnotin Hnd].
  constructor; [apply IH; exact Hnd|].
  rewrite Forall_forall in Hx |- *. intros y Hy.
  destruct (key_lt_trichotomy (sort_key x) (sort_key y)) as [H|[H|H]].
  - exact H.
  - exfalso. apply Hnotin. rewrite H. apply list_elem_of_fmap_2. exact Hy.
  - apply Index_lt_spec in H. rewrite (Hx y Hy) in H. discriminate.
Qed.

(** ** The store *)

Section Store.

Implicit Types (h : gmap loc object) (r : ref) (x y : Index).

Lemma bind_Ok {A B} (c : M A) (k : A -> M B) h a h' :
  c h = Ok (a, h') -> bind c k h = k a h'.
Proof. unfold bind. intros ->. reflexivity. Qed.

Lemma put_Index_Ok r x y h :
  get_Index r h = Ok (x, h) -> put_Index r y h = Ok (tt, updated r y h).
Proof.
  unfold get_Index, put_Index, updated.
  destruct r as [l|l]; destruct (h !! l) as [[?|?]|]; congruence.
Qed.

Lemma get_Index_updated r x y h :
  get_Index r h = Ok (x, h) ->
  get_Index r (updated r y h) = Ok (y, updated r y h).
Proof.
  unfold get_Index, updated.
  destruct r as [l|l]; destruct (h !! l) as [[?|?]|]; try congruence;
    intros _; rewrite lookup_insert_eq; reflexivity.
Qed.

Lemma updated_same r x h : get_Index r h = Ok (x, h) -> updated r x h = h.
Proof.
  unfold get_Index, updated.
  destruct r as [l|l]; destruct (h !! l) as [[?|iv]|] eqn:E; try congruence;
    intros [= <-]; apply insert_id; [exact E|].
  rewrite E. destruct iv; reflexivity.
Qed.

Lemma updated_updated r x y h :
  updated r y (updated r x h) = updated r y h.
Proof.
  unfold updated.
  destruct r as [l|l]; [apply insert_insert_eq|].
  destruct (h !! l) as [[?|iv]|] eqn:E; rewrite ?E; try reflexivity.
  rewrite lookup_insert_eq. simpl. apply insert_insert_eq.
Qed.

Lemma updated_frame r y h l :
  l <> object_of r -> updated r y h !! l = h !! l.
Proof.
  unfold updated. destruct r as [l'|l']; simpl; intros Hne.
  - apply lookup_insert_ne. congruence.
  - destruct (h !! l') as [[?|?]|]; try reflexivity.
    apply lookup_insert_ne. congruence.
Qed.

End Store.

(** ** [Index::prime(int)] *)

Lemma Index_prime_run DEBUG this inc h x :
  get_Index this h = Ok (x, h) ->
  Index_prime DEBUG this inc h =
    let x' := set_primelevel_ x (int_add (primelevel_ x) inc) in
    if DEBUG && (primelevel_ x' <? 0) then Fatal "Negative primeLevel"
    else Ok (this, updated this x' h).
Proof.
  intros Hget. unfold Index_prime.
  rewrite (bind_Ok _ _ _ _ _ Hget).
  rewrite (bind_Ok _ _ _ _ _ (put_Index_Ok _ _ _ _ Hget)).
  destruct DEBUG; simpl.
  - unfold bind at 1.
    rewrite (bind_Ok _ _ _ _ _ (get_Index_updated _ _ _ _ Hget)). simpl.
    destruct (int_add (primelevel_ x) inc <? 0); reflexivity.
  - reflexivity.
Qed.

(** ** Arithmetic on [int] *)

Lemma wrap_int_in_int z : in_int (wrap_int z).
Proof.
  unfold in_int, wrap_int, INT_MIN, INT_MAX.
  pose proof (Z.mod_pos_bound (z + 2 ^ 31) (2 ^ 32) ltac:(lia)). lia.
Qed.

Lemma wrap_int_id z : in_int z -> wrap_int z = z.
Proof.
  unfold in_int, wrap_int, INT_MIN, INT_MAX. intros H.
  rewrite Z.mod_small; lia.
Qed.

Lemma int_add_exact a b : in_int (a + b) -> int_add a b = a + b.
Proof. apply wrap_int_id. Qed.

Lemma int_add_neg_self p : int_add p (int_neg p) = 0.
Proof.
  unfold int_add, int_neg, wrap_int.
  rewrite (Z.mod_eq (- p + 2 ^ 31) (2 ^ 32)) by lia.
  replace (p + (- p + 2 ^ 31 - 2 ^ 32 * ((- p + 2 ^ 31) / 2 ^ 32) - 2 ^ 31)
             + 2 ^ 31)
    with (2 ^ 31 + (- ((- p + 2 ^ 31) / 2 ^ 32)) * 2 ^ 32) by lia.
  rewrite Z.mod_add by lia. reflexivity.
Qed.

(** C4: the member [prime(inc)] adds [inc] to the prime level in every
    build and returns [*this]; with the debug check compiled in it calls
    [Error] exactly when the new prime level is negative, so not when
    primeLevel + inc >= 0; without the check it always returns. *)
Theorem Index_prime_adds_inc (this : ref) (inc : Z) (h : gmap loc object)
    (x : Index) :
  get_Index this h = Ok (x, h) ->
  let x' := mkIndex (id_ x) (int_add (primelevel_ x) inc) (m_ x) (type_ x)
                    (sname_ x) in
  let h' := updated this x' h in
  get_Index this h' = Ok (x', h') /\
  (in_int (primelevel_ x + inc) -> primelevel_ x' = primelevel_ x + inc) /\
  Index_prime false this inc h = Ok (this, h') /\
  (primelevel_ x' < 0 ->
   Index_prime true this inc h = Fatal "Negative primeLevel") /\
  (0 <= primelevel_ x' -> Index_prime true this inc h = Ok (this, h')) /\
  (0 <= primelevel_ x + inc <= INT_MAX ->
   Index_prime true this inc h = Ok (this, h')).
Proof.
  intros Hget x' h'.
  assert (Htrue : Index_prime true this inc h =
                  if primelevel_ x' <? 0 then Fatal "Negative primeLevel"
                  else Ok (this, h')).
  { rewrite (Index_prime_run true this inc h x Hget). reflexivity. }
  split; [exact (get_Index_updated this x x' h Hget)|].
  split; [intros Hin; simpl; apply int_add_exact; exact Hin|].
  split; [rewrite (Index_prime_run false this inc h x Hget); reflexivity|].
  split; [|split].
  - intros Hneg. rewrite Htrue.
    destruct (Z.ltb_spec (primelevel_ x') 0); [reflexivity | lia].
  - intros Hpos. rewrite Htrue.
    destruct (Z.ltb_spec (primelevel_ x') 0); [lia | reflexivity].
  - intros Hsum. rewrite Htrue.
    assert (primelevel_ x' = primelevel_ x + inc) as ->.
    { simpl. apply int_add_exact. unfold in_int, INT_MIN. lia. }
    destruct (Z.ltb_spec (primelevel_ x + inc) 0); [lia | reflexivity].
Qed.

Lemma Index_prime_adds_inc_witness :
  let h : gmap loc object := {[ 1%positive := OIndex (mkIndex 7 0 4 Link "i") ]} in
  Index_prime false (Obj 1%positive) 1 h =
    Ok (Obj 1%positive, {[ 1%positive := OIndex (mkIndex 7 1 4 Link "i") ]}).
Proof.
  intros h.
  pose proof (Index_prime_adds_inc (Obj 1%positive) 1 h
                (mkIndex 7 0 4 Link "i") eq_refl) as H.
  simpl in H. destruct H as (_ & _ & H & _). rewrite H.
  vm_compute. reflexivity.
Defined.

(** ** [Index::prime(IndexType,int)], [Index::noprime], [Index::mapprime] *)

(** Whether the type of [x] matches the argument [type]. *)
Lemma type_matches_spec (x : Index) (type : IndexType) :
  bool_decide (type_ x = type) || bool_decide (type = All) = true <->
  type_ x = type \/ type = All.
Proof.
  rewrite orb_true_iff, !bool_decide_eq_true. reflexivity.
Qed.

Lemma Index_prime_type_run this type inc h x :
  get_Index this h = Ok (x, h) ->
  Index_prime_type this type inc h =
    if bool_decide (type_ x = type) || bool_decide (type = All)
    then Ok (this,
             updated this (set_primelevel_ x (int_add (primelevel_ x) inc)) h)
    else Ok (this, h).
Proof.
  intros Hget. unfold Index_prime_type.
  rewrite (bind_Ok _ _ _ _ _ Hget).
  destruct (bool_decide (type_ x = type) || bool_decide (type = All)).
  - rewrite (bind_Ok _ _ _ _ _ (put_Index_Ok _ _ _ _ Hget)). reflexivity.
  - reflexivity.
Qed.

Lemma Index_mapprime_run this plevold plevnew type h x :
  get_Index this h = Ok (x, h) ->
  Index_mapprime this plevold plevnew type h =
    if (primelevel_ x =? plevold) &&
       (bool_decide (type_ x = type) || bool_decide (type = All))
    then Ok (this, updated this (set_primelevel_ x plevnew) h)
    else Ok (this, h).
Proof.
  intros Hget. unfold Index_mapprime.
  rewrite (bind_Ok _ _ _ _ _ Hget).
  destruct ((primelevel_ x =? plevold) &&
            (bool_decide (type_ x = type) || bool_decide (type = All))).
  - rewrite (bind_Ok _ _ _ _ _ (put_Index_Ok _ _ _ _ Hget)). reflexivity.
  - reflexivity.
Qed.

Lemma Index_noprime_run this type h x :
  get_Index this h = Ok (x, h) ->
  Index_noprime this type h =
    if bool_decide (type_ x = type) || bool_decide (type = All)
    then Ok (this, updated this (set_primelevel_ x 0) h)
    else Ok (this, h).
Proof.
  intros Hget. unfold Index_noprime.
  rewrite (bind_Ok _ _ _ _ _ Hget).
  unfold bind. rewrite (Index_prime_type_run _ _ _ _ _ Hget).
  rewrite int_add_neg_self.
  destruct (bool_decide (type_ x = type) || bool_decide (type = All));
    reflexivity.
Qed.

(** C5: [prime(T, inc)] leaves the Index unchanged when [T] is neither
    [All] nor the type of the Index; when [T] is the type of the Index or
    [All] it adds [inc] to the prime level: the new prime level is an
    [int], and it is primeLevel + inc whenever that sum is one. *)
Theorem Index_prime_type_gated (this : ref) (T : IndexType) (inc : Z)
    (h : gmap loc object) (x : Index) :
  get_Index this h = Ok (x, h) ->
  (T <> All -> T <> Index_type x ->
   Index_prime_type this T inc h = Ok (this, h) /\
   get_Index this h = Ok (mkIndex (id_ x) (primelevel_ x) (m_ x) (type_ x)
                                  (sname_ x), h)) /\
  (T = Index_type x \/ T = All ->
   let x' := mkIndex (id_ x) (int_add (primelevel_ x) inc) (m_ x) (type_ x)
                     (sname_ x) in
   Index_prime_type this T inc h = Ok (this, updated this x' h) /\
   get_Index this (updated this x' h) = Ok (x', updated this x' h) /\
   in_int (Index_primeLevel x') /\
   (in_int (Index_primeLevel x + inc) ->
    Index_primeLevel x' = Index_primeLevel x + inc /\
    Index_prime_type this T inc h =
      Ok (this,
          updated this
            (mkIndex (id_ x) (primelevel_ x + inc) (m_ x) (type_ x)
                     (sname_ x)) h))).
Proof.
  intros Hget. rewrite (Index_prime_type_run this T inc h x Hget).
  unfold Index_type, Index_primeLevel. split.
  - intros HAll Hty.
    destruct (bool_decide (type_ x = T) || bool_decide (T = All)) eqn:E.
    + apply type_matches_spec in E. destruct E; congruence.
    + split; [reflexivity|]. destruct x; exact Hget.
  - intros Hm. cbv zeta.
    destruct (bool_decide (type_ x = T) || bool_decide (T = All)) eqn:E.
    + split; [reflexivity|].
      split; [exact (get_Index_updated this x _ h Hget)|].
      split; [apply wrap_int_in_int|].
      intros Hin. simpl. rewrite (int_add_exact _ _ Hin).
      split; reflexivity.
    + exfalso. apply not_true_iff_false in E. apply E.
      apply type_matches_spec. destruct Hm; [left; congruence | right; assumption].
Qed.

Lemma Index_prime_type_gated_witness :
  let x := mkIndex 7 0 4 Link "i" in
  let h : gmap loc object := {[ 1%positive := OIndex x ]} in
  (Index_prime_type (Obj 1%positive) Site 1 h = Ok (Obj 1%positive, h) /\
   get_Index (Obj 1%positive) h = Ok (x, h)) /\
  Index_prime_type (Obj 1%positive) Link 1 h =
    Ok (Obj 1%positive, {[ 1%positive := OIndex (mkIndex 7 1 4 Link "i") ]}) /\
  Index_prime_type (Obj 1%positive) All 2 h =
    Ok (Obj 1%positive, {[ 1%positive := OIndex (mkIndex 7 2 4 Link "i") ]}).
Proof.
  intros x h. split; [|split].
  - destruct (Index_prime_type_gated (Obj 1%positive) Site 1 h x eq_refl)
      as [H _].
    apply H; discriminate.
  - destruct (Index_prime_type_gated (Obj 1%positive) Link 1 h x eq_refl)
      as [_ H].
    destruct H as (H & _); [left; reflexivity|].
    rewrite H. vm_compute. reflexivity.
  - destruct (Index_prime_type_gated (Obj 1%positive) All 2 h x eq_refl)
      as [_ H].
    destruct H as (H & _); [right; reflexivity|].
    rewrite H. vm_compute. reflexivity.
Defined.

(** ** The free function templates work on a copy *)

Section ByValue.

Context {T : Type} `{PrimeLevel T}.
Hypothesis of_to_object : forall v : T, of_object (to_object v) = Some v.

Lemma by_value_call (body : loc -> M unit) (f : T -> Result T)
    (arg : T) (h : gmap loc object) :
  acts_as body f ->
  (I <-- new_param arg ;;
   body I ;;;
   r <-- value_at I ;;
   end_param I ;;;
   ret r) h =
    match f arg with
    | Ok v' => Ok (v', h)
    | Fatal msg => Fatal msg
    | Invalid => Invalid
    end.
Proof.
  intros Hbody.
  assert (Hfresh : h !! fresh (dom h) = None).
  { apply not_elem_of_dom. apply is_fresh. }
  unfold bind at 1, new_param.
  unfold bind at 1.
  rewrite (Hbody (fresh (dom h)) _ arg) by apply lookup_insert_eq.
  destruct (f arg) as [v'| |]; [|reflexivity|reflexivity].
  rewrite insert_insert_eq.
  unfold bind, value_at, end_param, ret.
  rewrite lookup_insert_eq, of_to_object.
  rewrite delete_insert_id by exact Hfresh. reflexivity.
Qed.

Lemma call_with_value (f : T -> M T) (a : loc) (v : T)
    (h : gmap loc object) :
  h !! a = Some (to_object v) -> call_with f a h = f v h.
Proof.
  intros Ha. unfold call_with, bind, value_at.
  rewrite Ha, of_to_object. reflexivity.
Qed.

End ByValue.

Lemma get_Index_Obj l h x :
  h !! l = Some (OIndex x) -> get_Index (Obj l) h = Ok (x, h).
Proof. unfold get_Index. intros ->. reflexivity. Qed.

Lemma get_Index_Member l h iv :
  h !! l = Some (OIndexVal iv) ->
  get_Index (Member_index l) h = Ok (index iv, h).
Proof. unfold get_Index. intros ->. reflexivity. Qed.

Lemma updated_Member l h iv x :
  h !! l = Some (OIndexVal iv) ->
  updated (Member_index l) x h = <[l := OIndexVal (mkIndexVal x (val iv))]> h.
Proof. unfold updated. intros ->. reflexivity. Qed.

Lemma insert_same_Index (l : loc) (h : gmap loc object) x :
  h !! l = Some (OIndex x) -> h = <[l := OIndex x]> h.
Proof. intros Hl. symmetry. apply insert_id. exact Hl. Qed.

Lemma insert_same_IndexVal (l : loc) (h : gmap loc object) iv :
  h !! l = Some (OIndexVal iv) ->
  h = <[l := OIndexVal (mkIndexVal (index iv) (val iv))]> h.
Proof. intros Hl. symmetry. apply insert_id. rewrite Hl. now destruct iv. Qed.

(** Runs one member call on the object at [l]. *)
Ltac run_member Hl lemma :=
  unfold bind at 1; rewrite lemma; simpl;
  repeat match goal with
         | |- context [if ?b then _ else _] => destruct b; simpl
         end;
  unfold bind, ret; simpl;
  rewrite ?(updated_Member _ _ _ _ Hl), ?Hl; simpl;
  first [ reflexivity
        | f_equal; f_equal; first [ exact (insert_same_Index _ _ _ Hl)
                                  | exact (insert_same_IndexVal _ _ _ Hl) ] ].

Lemma Index_prime_acts DEBUG inc :
  acts_as (fun l => T_prime (T := Index) DEBUG l inc) (prime_value DEBUG inc).
Proof.
  intros l h x Hl. simpl in *. unfold prime_value.
  run_member Hl (Index_prime_run DEBUG _ inc h x (get_Index_Obj _ _ _ Hl)).
Qed.

Lemma Index_prime_type_acts type inc :
  acts_as (fun l => T_prime_type (T := Index) l type inc)
          (fun x => Ok (prime_type_value type inc x)).
Proof.
  intros l h x Hl. simpl in *. unfold prime_type_value.
  run_member Hl (Index_prime_type_run _ type inc h x (get_Index_Obj _ _ _ Hl)).
Qed.

Lemma Index_noprime_acts type :
  acts_as (fun l => T_noprime (T := Index) l type)
          (fun x => Ok (noprime_value type x)).
Proof.
  intros l h x Hl. simpl in *. unfold noprime_value.
  run_member Hl (Index_noprime_run _ type h x (get_Index_Obj _ _ _ Hl)).
Qed.

Lemma Index_mapprime_acts a b type :
  acts_as (fun l => T_mapprime (T := Index) l a b type)
          (fun x => Ok (mapprime_value a b type x)).
Proof.
  intros l h x Hl. simpl in *. unfold mapprime_value.
  run_member Hl (Index_mapprime_run _ a b type h x (get_Index_Obj _ _ _ Hl)).
Qed.

Ltac run_index_member Hl lemma :=
  unfold IndexVal_prime, IndexVal_prime_type, IndexVal_noprime,
    IndexVal_mapprime, on_index;
  unfold bind at 1; run_member Hl lemma.

Lemma IndexVal_prime_acts DEBUG inc :
  acts_as (fun l => T_prime (T := IndexVal) DEBUG l inc)
          (on_index (prime_value DEBUG inc)).
Proof.
  intros l h iv Hl. simpl in *. unfold prime_value.
  run_index_member Hl
    (Index_prime_run DEBUG _ inc h _ (get_Index_Member _ _ _ Hl)).
Qed.

Lemma IndexVal_prime_type_acts type inc :
  acts_as (fun l => T_prime_type (T := IndexVal) l type inc)
          (on_index (fun x => Ok (prime_type_value type inc x))).
Proof.
  intros l h iv Hl. simpl in *. unfold prime_type_value.
  run_index_member Hl
    (Index_prime_type_run _ type inc h _ (get_Index_Member _ _ _ Hl)).
Qed.

Lemma IndexVal_noprime_acts type :
  acts_as (fun l => T_noprime (T := IndexVal) l type)
          (on_index (fun x => Ok (noprime_value type x))).
Proof.
  intros l h iv Hl. simpl in *. unfold noprime_value.
  run_index_member Hl
    (Index_noprime_run _ type h _ (get_Index_Member _ _ _ Hl)).
Qed.

Lemma IndexVal_mapprime_acts a b type :
  acts_as (fun l => T_mapprime (T := IndexVal) l a b type)
          (on_index (fun x => Ok (mapprime_value a b type x))).
Proof.
  intros l h iv Hl. simpl in *. unfold mapprime_value.
  run_index_member Hl
    (Index_mapprime_run _ a b type h _ (get_Index_Member _ _ _ Hl)).
Qed.

Section FreeFunctions.

Variables (DEBUG : bool) (inc plevold plevnew : Z) (type : IndexType).
Variable h : gmap loc object.

Lemma prime_Index (i : Index) :
  prime DEBUG i inc h = by_value (prime_value DEBUG inc) i h.
Proof.
  exact (@by_value_call Index PrimeLevel_Index (fun _ => eq_refl) _ _ i h
           (Index_prime_acts DEBUG inc)).
Qed.

Lemma prime_type_Index (i : Index) :
  prime_type i type inc h = Ok (prime_type_value type inc i, h).
Proof.
  exact (@by_value_call Index PrimeLevel_Index (fun _ => eq_refl) _ _ i h
           (Index_prime_type_acts type inc)).
Qed.

Lemma noprime_Index (i : Index) :
  noprime i type h = Ok (noprime_value type i, h).
Proof.
  exact (@by_value_call Index PrimeLevel_Index (fun _ => eq_refl) _ _ i h
           (Index_noprime_acts type)).
Qed.

Lemma mapPrime_Index (i : Index) :
  mapPrime i plevold plevnew type h =
  Ok (mapprime_value plevold plevnew type i, h).
Proof.
  exact (@by_value_call Index PrimeLevel_Index (fun _ => eq_refl) _ _ i h
           (Index_mapprime_acts plevold plevnew type)).
Qed.

Lemma prime_IndexVal (iv : IndexVal) :
  prime DEBUG iv inc h = by_value (on_index (prime_value DEBUG inc)) iv h.
Proof.
  exact (@by_value_call IndexVal PrimeLevel_IndexVal (fun _ => eq_refl)
           _ _ iv h (IndexVal_prime_acts DEBUG inc)).
Qed.

Lemma prime_type_IndexVal (iv : IndexVal) :
  prime_type iv type inc h =
  Ok (mkIndexVal (prime_type_value type inc (index iv)) (val iv), h).
Proof.
  exact (@by_value_call IndexVal PrimeLevel_IndexVal (fun _ => eq_refl)
           _ _ iv h (IndexVal_prime_type_acts type inc)).
Qed.

Lemma noprime_IndexVal (iv : IndexVal) :
  noprime iv type h =
  Ok (mkIndexVal (noprime_value type (index iv)) (val iv), h).
Proof.
  exact (@by_value_call IndexVal PrimeLevel_IndexVal (fun _ => eq_refl)
           _ _ iv h (IndexVal_noprime_acts type)).
Qed.

Lemma mapPrime_IndexVal (iv : IndexVal) :
  mapPrime iv plevold plevnew type h =
  Ok (mkIndexVal (mapprime_value plevold plevnew type (index iv)) (val iv),
      h).
Proof.
  exact (@by_value_call IndexVal PrimeLevel_IndexVal (fun _ => eq_refl)
           _ _ iv h (IndexVal_mapprime_acts plevold plevnew type)).
Qed.

End FreeFunctions.

(** C6: [mapprime(a, b, T)] sets the prime level to [b] when the prime
    level is [a] and the type matches [T] or [T] is [All]; for another
    prime level or a type that does not match, the Index is unchanged.
    [mapPrime(j, 1, 5)] on a [j] of prime level 1 has prime level 5, and
    [mapPrime(j, 2, 9)] is a copy identical to [j]. *)
Theorem Index_mapprime_exact (this : ref) (a b : Z) (T : IndexType)
    (h : gmap loc object) (x : Index) :
  get_Index this h = Ok (x, h) ->
  (Index_primeLevel x = a /\ (Index_type x = T \/ T = All) ->
   let x' := mkIndex (id_ x) b (m_ x) (type_ x) (sname_ x) in
   Index_mapprime this a b T h = Ok (this, updated this x' h) /\
   get_Index this (updated this x' h) = Ok (x', updated this x' h)) /\
  (~ (Index_primeLevel x = a /\ (Index_type x = T \/ T = All)) ->
   Index_mapprime this a b T h = Ok (this, h)) /\
  (forall (h0 : gmap loc object) (j : Index), Index_primeLevel j = 1 ->
     (exists k : Index, mapPrime j 1 5 All h0 = Ok (k, h0) /\
                        Index_primeLevel k = 5) /\
     mapPrime j 2 9 All h0 = Ok (j, h0)).
Proof.
  intros Hget. rewrite (Index_mapprime_run this a b T h x Hget).
  unfold Index_primeLevel, Index_type.
  destruct ((primelevel_ x =? a) &&
            (bool_decide (type_ x = T) || bool_decide (T = All))) eqn:E.
  - apply andb_true_iff in E as [Ea Et].
    apply Z.eqb_eq in Ea. apply type_matches_spec in Et.
    split; [|split].
    + intros _. cbv zeta. split; [reflexivity|].
      exact (get_Index_updated this x _ h Hget).
    + intros Hn. exfalso. apply Hn. split; assumption.
    + intros h0 j Hj. rewrite !mapPrime_Index. unfold mapprime_value.
      rewrite Hj. simpl. rewrite orb_true_r. split; [|reflexivity].
      eexists. split; reflexivity.
  - split; [|split].
    + intros [Ha Ht]. exfalso. apply not_true_iff_false in E. apply E.
      apply andb_true_iff. split.
      * apply Z.eqb_eq. exact Ha.
      * apply type_matches_spec. exact Ht.
    + reflexivity.
    + intros h0 j Hj. rewrite !mapPrime_Index. unfold mapprime_value.
      rewrite Hj. simpl. rewrite orb_true_r. split; [|reflexivity].
      eexists. split; reflexivity.
Qed.

Lemma Index_mapprime_exact_witness :
  let j := mkIndex 7 1 4 Link "i" in
  let h : gmap loc object := {[ 1%positive := OIndex j ]} in
  Index_mapprime (Obj 1%positive) 1 5 All h =
    Ok (Obj 1%positive, {[ 1%positive := OIndex (mkIndex 7 5 4 Link "i") ]}) /\
  Index_mapprime (Obj 1%positive) 2 9 All h = Ok (Obj 1%positive, h).
Proof.
  intros j h. split.
  - destruct (Index_mapprime_exact (Obj 1%positive) 1 5 All h j eq_refl)
      as (H & _ & _).
    destruct H as [H _]; [split; [reflexivity | right; reflexivity]|].
    rewrite H. vm_compute. reflexivity.
  - destruct (Index_mapprime_exact (Obj 1%positive) 2 9 All h j eq_refl)
      as (_ & H & _).
    apply H. intros [Hp _]. discriminate Hp.
Defined.

(** C7: [noprime(T)] does what [prime(T, -primeLevel())] does: when the
    type matches [T] or [T] is [All] the prime level becomes 0, otherwise
    nothing changes; in both cases the call returns [*this]. *)
Theorem Index_noprime_is_prime_type_neg (this : ref) (T : IndexType)
    (h : gmap loc object) (x : Index) :
  get_Index this h = Ok (x, h) ->
  Index_noprime this T h =
    Index_prime_type this T (int_neg (Index_primeLevel x)) h /\
  (Index_type x = T \/ T = All ->
   let x' := mkIndex (id_ x) 0 (m_ x) (type_ x) (sname_ x) in
   Index_noprime this T h = Ok (this, updated this x' h) /\
   get_Index this (updated this x' h) = Ok (x', updated this x' h)) /\
  (~ (Index_type x = T \/ T = All) ->
   Index_noprime this T h = Ok (this, h)) /\
  (exists h', Index_noprime this T h = Ok (this, h')).
Proof.
  intros Hget. rewrite (Index_noprime_run this T h x Hget).
  rewrite (Index_prime_type_run this T _ h x Hget).
  unfold Index_primeLevel, Index_type. rewrite int_add_neg_self.
  destruct (bool_decide (type_ x = T) || bool_decide (T = All)) eqn:E.
  - apply type_matches_spec in E.
    split; [reflexivity|]. split; [|split].
    + intros _. cbv zeta. split; [reflexivity|].
      exact (get_Index_updated this x _ h Hget).
    + intros Hn. contradiction.
    + eexists. reflexivity.
  - split; [reflexivity|]. split; [|split].
    + intros Ht. apply type_matches_spec in Ht. congruence.
    + reflexivity.
    + eexists. reflexivity.
Qed.

Lemma Index_noprime_is_prime_type_neg_witness :
  let x := mkIndex 7 3 4 Link "i" in
  let h : gmap loc object := {[ 1%positive := OIndex x ]} in
  Index_noprime (Obj 1%positive) All h =
    Ok (Obj 1%positive, {[ 1%positive := OIndex (mkIndex 7 0 4 Link "i") ]}).
Proof.
  intros x h.
  destruct (Index_noprime_is_prime_type_neg (Obj 1%positive) All h x eq_refl)
    as (_ & H & _).
  destruct H as [H _]; [right; reflexivity|].
  rewrite H. vm_compute. reflexivity.
Defined.

Lemma call_with_Index (f : Index -> M Index) (a : loc) (i : Index)
    (h : gmap loc object) :
  h !! a = Some (OIndex i) -> call_with f a h = f i h.
Proof.
  exact (@call_with_value Index PrimeLevel_Index (fun _ => eq_refl) f a i h).
Qed.

Lemma call_with_IndexVal (f : IndexVal -> M IndexVal) (a : loc)
    (iv : IndexVal) (h : gmap loc object) :
  h !! a = Some (OIndexVal iv) -> call_with f a h = f iv h.
Proof.
  exact (@call_with_value IndexVal PrimeLevel_IndexVal (fun _ => eq_refl)
           f a iv h).
Qed.

(** C8: the free functions [prime], [noprime] and [mapPrime] work on a
    copy, for Index and for IndexVal: they return the transformed copy
    and leave the store, so the argument, as it was.  For
    [i = Index("i", 4)] and [j = prime(i)]: [j.m() == 4],
    [j.primeLevel() == 1], [j.id() == i.id()], [i == j] is false and
    [i.noprimeEquals(j)] is true. *)
Theorem free_functions_by_value (h : gmap loc object) (a : loc) :
  (forall (i : Index) (inc plevold plevnew : Z) (T : IndexType),
     h !! a = Some (OIndex i) ->
     let matches := bool_decide (type_ i = T) || bool_decide (T = All) in
     let primed := set_primelevel_ i (int_add (primelevel_ i) inc) in
     call_with (fun I => prime false I inc) a h = Ok (primed, h) /\
     call_with (fun I => prime true I inc) a h =
       (if primelevel_ primed <? 0 then Fatal "Negative primeLevel"
        else Ok (primed, h)) /\
     call_with (fun I => prime_type I T inc) a h =
       Ok (if matches then primed else i, h) /\
     call_with (fun I => noprime I T) a h =
       Ok (if matches then set_primelevel_ i 0 else i, h) /\
     call_with (fun I => mapPrime I plevold plevnew T) a h =
       Ok (if (primelevel_ i =? plevold) && matches
           then set_primelevel_ i plevnew else i, h)) /\
  (forall (iv : IndexVal) (inc plevold plevnew : Z) (T : IndexType),
     h !! a = Some (OIndexVal iv) ->
     let i := index iv in
     let matches := bool_decide (type_ i = T) || bool_decide (T = All) in
     let primed := set_primelevel_ i (int_add (primelevel_ i) inc) in
     call_with (fun I => prime false I inc) a h =
       Ok (mkIndexVal primed (val iv), h) /\
     call_with (fun I => prime true I inc) a h =
       (if primelevel_ primed <? 0 then Fatal "Negative primeLevel"
        else Ok (mkIndexVal primed (val iv), h)) /\
     call_with (fun I => prime_type I T inc) a h =
       Ok (mkIndexVal (if matches then primed else i) (val iv), h) /\
     call_with (fun I => noprime I T) a h =
       Ok (mkIndexVal (if matches then set_primelevel_ i 0 else i) (val iv),
           h) /\
     call_with (fun I => mapPrime I plevold plevnew T) a h =
       Ok (mkIndexVal (if (primelevel_ i =? plevold) && matches
                       then set_primelevel_ i plevnew else i) (val iv), h)) /\
  (forall (G : Type) (rng : G -> Z * G) (DEBUG : bool) (g : G),
     exists i : Index,
       Index_ctor_name_m rng DEBUG "i" 4 g = Ok (i, snd (rng g)) /\
       (h !! a = Some (OIndex i) ->
        exists j : Index,
          call_with (fun I => prime DEBUG I 1) a h = Ok (j, h) /\
          Index_m j = 4 /\
          Index_primeLevel j = 1 /\
          Index_id j = Index_id i /\
          Index_eq i j = false /\
          Index_noprimeEquals i j = true)).
Proof.
  split; [|split].
  - intros i inc plevold plevnew T Ha. cbv zeta.
    rewrite !(call_with_Index _ a i h Ha).
    rewrite !prime_Index, prime_type_Index, noprime_Index, mapPrime_Index.
    unfold by_value, prime_value, prime_type_value, noprime_value,
      mapprime_value. simpl.
    repeat split; try reflexivity.
    destruct (int_add (primelevel_ i) inc <? 0); reflexivity.
  - intros iv inc plevold plevnew T Ha. cbv zeta.
    rewrite !(call_with_IndexVal _ a iv h Ha).
    rewrite !prime_IndexVal, prime_type_IndexVal, noprime_IndexVal,
      mapPrime_IndexVal.
    unfold by_value, on_index, prime_value, prime_type_value, noprime_value,
      mapprime_value. simpl.
    repeat split; try reflexivity.
    destruct (int_add (primelevel_ (index iv)) inc <? 0); reflexivity.
  - intros G rng DEBUG g.
    exists (mkIndex (fst (rng g)) 0 4 Link "i"). split.
    + unfold Index_ctor_name_m, Index_ctor, generateID.
      destruct (rng g) as [id g'].
      simpl. rewrite !andb_false_r. reflexivity.
    + intros Ha.
      rewrite (call_with_Index _ a _ h Ha).
      rewrite prime_Index. unfold by_value, prime_value. simpl.
      rewrite andb_false_r. eexists. split; [reflexivity|].
      unfold Index_m, Index_primeLevel, Index_id, Index_eq,
        Index_noprimeEquals. simpl.
      rewrite Z.eqb_refl. repeat split; reflexivity.
Qed.

Lemma free_functions_by_value_witness :
  let i := mkIndex 7 0 4 Link "i" in
  let h : gmap loc object := {[ 1%positive := OIndex i ]} in
  call_with (fun I => prime false I 1) 1%positive h =
    Ok (mkIndex 7 1 4 Link "i", h) /\
  h !! 1%positive = Some (OIndex i).
Proof.
  intros i h. split; [|reflexivity].
  destruct (free_functions_by_value h 1%positive) as (H & _ & _).
  destruct (H i 1 0 0 All eq_refl) as (H1 & _).
  exact H1.
Defined.

(** ** Constructors and the null Index *)

(** In a build without the debug checks the named constructor accepts
    the type [NullIndex], and the Index it builds converts to [false]. *)
Lemma Index_ctor_NullIndex_converts_to_false :
  Index_ctor (fun n : Z => (n, n + 1)) false "n" 1 NullIndex 0 0 =
    Ok (mkIndex 0 0 1 NullIndex "n", 1) /\
  Index_bool (mkIndex 0 0 1 NullIndex "n") = false.
Proof. split; reflexivity. Qed.

(** C9 (amended): a default-constructed Index has id 0, type NullIndex,
    m 1 and prime level 0 and converts to [false].  An Index built by the
    named constructor converts to [true] exactly when its type is not
    [NullIndex]; with the debug checks the constructor calls [Error] for
    the types [All] and [NullIndex], so every Index it builds there
    converts to [true]; without them it builds an Index of any type. *)
Theorem Index_ctor_bool :
  (Index_id Index_default = 0 /\
   Index_type Index_default = NullIndex /\
   Index_m Index_default = 1 /\
   Index_primeLevel Index_default = 0 /\
   Index_bool Index_default = false) /\
  (forall (G : Type) (rng : G -> Z * G) (DEBUG : bool) (name : string)
          (m : Z) (type : IndexType) (plev : Z) (g g' : G) (x : Index),
     Index_ctor rng DEBUG name m type plev g = Ok (x, g') ->
     (Index_bool x = true <-> type <> NullIndex) /\
     (DEBUG = true -> Index_bool x = true)) /\
  (forall (G : Type) (rng : G -> Z * G) (name : string) (m plev : Z) (g : G),
     Index_ctor rng true name m All plev g =
       Fatal "Constructing Index with type All disallowed" /\
     Index_ctor rng true name m NullIndex plev g =
       Fatal "Constructing Index with type NullIndex disallowed") /\
  (forall (G : Type) (rng : G -> Z * G) (name : string) (m : Z)
          (type : IndexType) (plev : Z) (g : G),
     Index_ctor rng false name m type plev g =
       Ok (mkIndex (fst (rng g)) plev m type name, snd (rng g))).
Proof.
  split; [repeat split|]. split; [|split].
  - intros G rng DEBUG name m type plev g g' x.
    unfold Index_ctor, generateID. destruct (rng g) as [id g1]. simpl.
    destruct DEBUG, type; simpl; intros [= <- <-]; unfold Index_bool; simpl;
      (split; [split; [intros _; discriminate | reflexivity]
              | first [reflexivity | discriminate]])
      || (split; [split; [discriminate | intros Hn; now destruct Hn]
                 | discriminate]).
  - intros G rng name m plev g. unfold Index_ctor, generateID.
    destruct (rng g) as [id g1]. split; reflexivity.
  - intros G rng name m type plev g. unfold Index_ctor, generateID.
    destruct (rng g) as [id g1]. reflexivity.
Qed.

Lemma Index_ctor_bool_witness :
  Index_ctor (fun n : Z => (n, n + 1)) true "i" 4 Link 0 0 =
    Ok (mkIndex 0 0 4 Link "i", 1) /\
  Index_bool (mkIndex 0 0 4 Link "i") = true.
Proof.
  split; [reflexivity|].
  destruct Index_ctor_bool as (_ & H & _).
  destruct (H Z (fun n : Z => (n, n + 1)) true "i" 4 Link 0 0 1
              (mkIndex 0 0 4 Link "i") eq_refl) as [[_ Hb] _].
  apply Hb. discriminate.
Defined.

(** C10: two Index objects that are each default-constructed, neither a
    copy of the other, are equal under [==] and under [noprimeEquals]:
    both have id 0 and prime level 0. *)
Theorem default_Index_objects_compare_equal (h : gmap loc object) :
  Index_eq Index_default Index_default = true /\
  Index_noprimeEquals Index_default Index_default = true /\
  exists (l1 l2 : loc) (h' : gmap loc object) (x y : Index),
    (a <-- new_param Index_default ;;
     b <-- new_param Index_default ;;
     ret (a, b)) h = Ok ((l1, l2), h') /\
    l1 <> l2 /\
    h' !! l1 = Some (OIndex x) /\
    h' !! l2 = Some (OIndex y) /\
    Index_id x = 0 /\ Index_id y = 0 /\
    Index_primeLevel x = 0 /\ Index_primeLevel y = 0 /\
    Index_eq x y = true /\
    Index_ne x y = false /\
    Index_noprimeEquals x y = true.
Proof.
  split; [reflexivity|]. split; [reflexivity|].
  set (l1 := fresh (dom h)).
  set (h1 := <[l1 := OIndex Index_default]> h).
  set (l2 := fresh (dom h1)).
  assert (Hne : l1 <> l2).
  { intros Heq. apply (is_fresh (dom h1)). fold l2. rewrite <- Heq.
    apply elem_of_dom. exists (OIndex Index_default).
    apply lookup_insert_eq. }
  exists l1, l2, (<[l2 := OIndex Index_default]> h1),
    Index_default, Index_default.
  split; [reflexivity|]. split; [exact Hne|].
  split.
  { rewrite lookup_insert_ne by congruence. apply lookup_insert_eq. }
  split; [apply lookup_insert_eq|].
  repeat split.
Qed.

(** C3: [operator<] compares by m, on a tie by id, on a tie by prime
    level; [operator>] is the mirrored order; the order is transitive,
    asymmetric (so antisymmetric) and irreflexive; a list of Index values
    with distinct (m, id, primeLevel) that is sorted with [operator<] is
    ascending by m, then id, then prime level. *)
Theorem Index_lt_strict_order :
  (forall a b : Index,
     Index_lt a b = true <->
     Index_m a < Index_m b \/
     (Index_m a = Index_m b /\
      (Index_id a < Index_id b \/
       (Index_id a = Index_id b /\
        Index_primeLevel a < Index_primeLevel b)))) /\
  (forall a b : Index, Index_gt a b = Index_lt b a) /\
  (forall a b c : Index,
     Index_lt a b = true -> Index_lt b c = true -> Index_lt a c = true) /\
  (forall a b : Index, Index_lt a b = true -> Index_lt b a = false) /\
  (forall a b : Index,
     Index_lt a b = true -> Index_lt b a = true -> a = b) /\
  (forall a : Index, Index_lt a a = false) /\
  (forall l s : list Index,
     NoDup (sort_key <$> l) -> Permutation l s -> sorted_by_lt s ->
     ascending s) /\
  (forall l : list Index,
     Permutation l (sort_by_lt l) /\ sorted_by_lt (sort_by_lt l)) /\
  (forall l : list Index,
     NoDup (sort_key <$> l) -> ascending (sort_by_lt l)).
Proof.
  repeat apply conj.
  - intros a b. apply Index_lt_spec.
  - apply Index_gt_mirror.
  - apply Index_lt_trans.
  - apply Index_lt_asym.
  - intros a b Hab Hba. rewrite (Index_lt_asym a b Hab) in Hba.
    discriminate.
  - apply Index_lt_irrefl.
  - intros l s Hnd Hperm Hs. apply sorted_distinct_ascending; [|exact Hs].
    rewrite <- Hperm. exact Hnd.
  - intros l. split; [apply sort_by_lt_Permutation | apply sort_by_lt_sorted].
  - intros l Hnd. apply sorted_distinct_ascending.
    + rewrite <- (sort_by_lt_Permutation l). exact Hnd.
    + apply sort_by_lt_sorted.
Qed.

Lemma Index_lt_strict_order_witness :
  let a := mkIndex 9 0 2 Link "a" in
  let b := mkIndex 5 1 2 Site "b" in
  let c := mkIndex 5 0 2 Site "c" in
  let d := mkIndex 1 0 3 Link "d" in
  sort_by_lt [a; b; d; c] = [c; b; a; d] /\
  ascending (sort_by_lt [a; b; d; c]).
Proof.
  intros a b c d. split; [reflexivity|].
  destruct Index_lt_strict_order as (_ & _ & _ & _ & _ & _ & _ & _ & H).
  apply H. apply (bool_decide_unpack _). vm_compute. exact I.
Defined.

(** ** The binary codec *)

Section Codec.

Implicit Types (n : nat) (z : Z) (bs rest : list byte).

Lemma Z_of_byte_of_Z z : 0 <= z < 256 -> Z_of_byte (byte_of_Z z) = z.
Proof.
  intros Hz. unfold Z_of_byte, byte_of_Z.
  destruct (Byte.of_N (Z.to_N z)) as [b|] eqn:E.
  - apply Byte.to_of_N in E. rewrite E. lia.
  - apply Byte.of_N_None_iff in E. lia.
Qed.

Lemma length_le_bytes n z : length (le_bytes n z) = n.
Proof.
  revert z. induction n as [|n IH]; intros z; simpl; [reflexivity|].
  rewrite IH. reflexivity.
Qed.

Lemma le_value_le_bytes n z :
  le_value (le_bytes n z) = z mod 2 ^ (8 * Z.of_nat n).
Proof.
  revert z. induction n as [|n IH]; intros z.
  - simpl. rewrite Z.mod_1_r. reflexivity.
  - cbn [le_bytes le_value]. rewrite IH.
    rewrite Z_of_byte_of_Z by (apply Z.mod_pos_bound; lia).
    replace (2 ^ (8 * Z.of_nat (S n))) with (256 * 2 ^ (8 * Z.of_nat n)).
    + rewrite Z.rem_mul_r by lia. reflexivity.
    + replace (8 * Z.of_nat (S n)) with (8 + 8 * Z.of_nat n) by lia.
      rewrite Z.pow_add_r by lia. reflexivity.
Qed.

Lemma take_bytes_app bs rest :
  take_bytes (length bs) (bs ++ rest) = Some (bs, rest).
Proof.
  unfold take_bytes. rewrite length_app.
  destruct (Nat.leb_spec (length bs) (length bs + length rest)); [|lia].
  rewrite take_app_length, drop_app_length. reflexivity.
Qed.

Lemma decode_encode_unsigned n z rest :
  0 <= z < 2 ^ (8 * Z.of_nat n) ->
  decode_unsigned n (encode_unsigned n z ++ rest) = Some (z, rest).
Proof.
  intros Hz. unfold decode_unsigned, encode_unsigned.
  rewrite <- (length_le_bytes n z) at 1. rewrite take_bytes_app.
  rewrite le_value_le_bytes, Z.mod_small by exact Hz. reflexivity.
Qed.

Lemma decode_encode_signed n z rest :
  - 2 ^ (8 * Z.of_nat n) <= 2 * z < 2 ^ (8 * Z.of_nat n) ->
  decode_signed n (encode_signed n z ++ rest) = Some (z, rest).
Proof.
  intros Hz. unfold decode_signed, encode_signed.
  set (W := 2 ^ (8 * Z.of_nat n)) in *.
  rewrite <- (length_le_bytes n (z mod W)) at 1. rewrite take_bytes_app.
  rewrite le_value_le_bytes. fold W.
  assert (HW : 0 < W) by (apply Z.pow_pos_nonneg; lia).
  rewrite Z.mod_mod by lia.
  destruct (Z_lt_le_dec z 0) as [Hneg|Hpos].
  - assert (z mod W = z + W) as ->.
    { symmetry. apply (Z.mod_unique z W (-1)); lia. }
    destruct (Z.ltb_spec (2 * (z + W)) W); [lia|].
    do 2 f_equal. lia.
  - rewrite Z.mod_small by lia.
    destruct (Z.ltb_spec (2 * z) W); [reflexivity | lia].
Qed.

Lemma decode_encode_int z rest :
  in_int z ->
  decode_signed int_bytes (encode_signed int_bytes z ++ rest) =
  Some (z, rest).
Proof.
  unfold in_int, INT_MIN, INT_MAX. intros Hz.
  apply decode_encode_signed. unfold int_bytes. simpl. lia.
Qed.

Lemma decode_encode_long z rest :
  in_long z ->
  decode_signed long_bytes (encode_signed long_bytes z ++ rest) =
  Some (z, rest).
Proof.
  unfold in_long, LONG_MIN, LONG_MAX. intros Hz.
  apply decode_encode_signed. unfold long_bytes. simpl. lia.
Qed.

Lemma IndexType_of_ordinal_ordinal (t : IndexType) :
  IndexType_of_ordinal (IndexType_ordinal t) = Some t.
Proof. destruct t; reflexivity. Qed.

Lemma IndexType_ordinal_in_int (t : IndexType) :
  in_int (IndexType_ordinal t).
Proof. destruct t; unfold in_int, INT_MIN, INT_MAX; simpl; lia. Qed.

Lemma length_list_byte_of_string (s : string) :
  length (list_byte_of_string s) = String.length s.
Proof.
  unfold list_byte_of_string. rewrite length_map.
  induction s as [|c s IH]; simpl; [reflexivity | now rewrite IH].
Qed.

Variable IDType_bytes : nat.

Lemma Index_read_write (x : Index) (rest : list byte) :
  Index_representable IDType_bytes x ->
  Index_read IDType_bytes (Index_write IDType_bytes x [] ++ rest) =
  Some (x, rest).
Proof.
  intros (Hid & Hp & Hm & Hlen).
  unfold Index_write, Index_read. rewrite app_nil_l, <- !app_assoc.
  rewrite decode_encode_unsigned by exact Hid.
  rewrite decode_encode_int by exact Hp.
  rewrite decode_encode_long by exact Hm.
  rewrite decode_encode_int by apply IndexType_ordinal_in_int.
  rewrite IndexType_of_ordinal_ordinal.
  rewrite decode_encode_int
    by (unfold in_int, INT_MIN; split; [lia | exact Hlen]).
  destruct (Z.ltb_spec (Z.of_nat (String.length (sname_ x))) 0); [lia|].
  rewrite Nat2Z.id, <- length_list_byte_of_string, take_bytes_app.
  rewrite string_of_list_byte_of_string. destruct x; reflexivity.
Qed.

End Codec.

(** C2: reading back the bytes that [write] produced for an Index [x]
    gives an Index equal to [x] under [==] and under [noprimeEquals],
    with the same [name()], [m()] and [type()]; this holds for every [x]
    that the named constructor builds from a name, m, type and prime
    level in the ranges of their C++ types. *)
Theorem Index_write_read_roundtrip (IDType_bytes : nat) :
  (forall (x : Index) (rest : list byte),
     Index_representable IDType_bytes x ->
     exists y : Index,
       Index_read IDType_bytes (Index_write IDType_bytes x [] ++ rest) =
         Some (y, rest) /\
       Index_eq y x = true /\
       Index_eq x y = true /\
       Index_noprimeEquals y x = true /\
       Index_noprimeEquals x y = true /\
       Index_name y = Index_name x /\
       Index_rawname y = Index_rawname x /\
       Index_m y = Index_m x /\
       Index_type y = Index_type x) /\
  (forall (G : Type) (rng : G -> Z * G) (DEBUG : bool) (name : string)
          (m : Z) (type : IndexType) (plev : Z) (g g' : G) (x : Index),
     Index_ctor rng DEBUG name m type plev g = Ok (x, g') ->
     0 <= fst (rng g) < 2 ^ (8 * Z.of_nat IDType_bytes) ->
     in_long m -> in_int plev ->
     Z.of_nat (String.length name) <= INT_MAX ->
     Index_representable IDType_bytes x).
Proof.
  split.
  - intros x rest Hx. exists x.
    split; [apply Index_read_write; exact Hx|].
    unfold Index_eq, Index_noprimeEquals. rewrite !Z.eqb_refl.
    repeat split.
  - intros G rng DEBUG name m type plev g g' x Hctor Hid Hm Hp Hlen.
    unfold Index_ctor, generateID in Hctor.
    destruct (rng g) as [id g1]. simpl in *.
    destruct (DEBUG && bool_decide (type = All)); [discriminate|].
    destruct (DEBUG && bool_decide (type = NullIndex)); [discriminate|].
    injection Hctor as <- <-.
    exact (conj Hid (conj Hp (conj Hm Hlen))).
Qed.

Lemma Index_write_read_roundtrip_witness :
  let x := mkIndex 3499211612 1 4 Site "site" in
  Index_representable 8 x /\
  exists y : Index,
    Index_read 8 (Index_write 8 x []) = Some (y, []) /\
    Index_eq y x = true /\
    Index_name y = "site'"%string.
Proof.
  intros x.
  assert (Hx : Index_representable 8 x).
  { unfold Index_representable, in_int, in_long, INT_MIN, INT_MAX, LONG_MIN,
      LONG_MAX. simpl. lia. }
  split; [exact Hx|].
  destruct (Index_write_read_roundtrip 8) as [H _].
  destruct (H x [] Hx) as (y & Hread & Heq & _ & _ & _ & Hname & _).
  exists y. rewrite app_nil_r in Hread.
  split; [exact Hread|]. split; [exact Heq|].
  rewrite Hname. reflexivity.
Defined.

(** ** Further properties of the comparison operators *)

(** X1: [operator==] is an equivalence relation on Index values. *)
Theorem Index_eq_equivalence :
  (forall a : Index, Index_eq a a = true) /\
  (forall a b : Index, Index_eq a b = Index_eq b a) /\
  (forall a b c : Index,
     Index_eq a b = true -> Index_eq b c = true -> Index_eq a c = true).
Proof.
  unfold Index_eq. split; [|split].
  - intros a. rewrite !Z.eqb_refl. reflexivity.
  - intros a b. rewrite (Z.eqb_sym (id_ a)), (Z.eqb_sym (primelevel_ a)).
    reflexivity.
  - intros a b c. rewrite !andb_true_iff, !Z.eqb_eq.
    intros [-> ->] [-> ->]. split; reflexivity.
Qed.

(** X2: [noprimeEquals] is an equivalence relation that contains [==]:
    Index values that are [==] are [noprimeEquals], and two Index values
    that are [noprimeEquals] are [==] once their prime levels agree. *)
Theorem Index_noprimeEquals_equivalence :
  (forall a : Index, Index_noprimeEquals a a = true) /\
  (forall a b : Index, Index_noprimeEquals a b = Index_noprimeEquals b a) /\
  (forall a b c : Index,
     Index_noprimeEquals a b = true -> Index_noprimeEquals b c = true ->
     Index_noprimeEquals a c = true) /\
  (forall a b : Index,
     Index_eq a b = true -> Index_noprimeEquals a b = true) /\
  (forall a b : Index,
     Index_noprimeEquals a b = true ->
     Index_primeLevel a = Index_primeLevel b -> Index_eq a b = true).
Proof.
  unfold Index_noprimeEquals, Index_eq, Index_primeLevel.
  split; [|split; [|split; [|split]]].
  - intros a. apply Z.eqb_refl.
  - intros a b. apply Z.eqb_sym.
  - intros a b c. rewrite !Z.eqb_eq. congruence.
  - intros a b H. apply andb_true_iff in H. tauto.
  - intros a b -> ->. rewrite Z.eqb_refl. reflexivity.
Qed.

Lemma Index_noprimeEquals_equivalence_witness :
  Index_eq (mkIndex 7 2 4 Link "i") (mkIndex 7 2 9 Site "j") = true.
Proof.
  destruct Index_noprimeEquals_equivalence as (_ & _ & _ & _ & H).
  apply H; reflexivity.
Defined.



(** X4: Index values that [operator<] does not order either way are
    [==]; for Index values that are [==], [a < b] holds exactly when
    [a.m() < b.m()], so [==] and [<] exclude each other only for equal m. *)
Theorem Index_lt_and_eq :
  (forall a b : Index,
     Index_lt a b = false -> Index_lt b a = false ->
     Index_eq a b = true /\ Index_m a = Index_m b) /\
  (forall a b : Index,
     Index_eq a b = true ->
     (Index_lt a b = true <-> Index_m a < Index_m b)).
Proof.
  split.
  - intros a b Hab Hba.
    apply Index_lt_false_spec in Hab. apply Index_lt_false_spec in Hba.
    destruct (key_lt_trichotomy (sort_key a) (sort_key b)) as [H|[H|H]];
      [contradiction| |contradiction].
    unfold sort_key in H. injection H as Hm Hi Hp.
    unfold Index_eq, Index_m. rewrite Hi, Hp, !Z.eqb_refl. split; auto.
  - intros a b H. unfold Index_eq in H.
    apply andb_true_iff in H as [Hi Hp]. apply Z.eqb_eq in Hi, Hp.
    rewrite Index_lt_spec. unfold key_lt, sort_key, Index_m. lia.
Qed.

Lemma Index_lt_and_eq_witness :
  Index_eq (mkIndex 7 0 4 Link "a") (mkIndex 7 0 4 Site "c") = true /\
  (Index_lt (mkIndex 7 0 2 Link "a") (mkIndex 7 0 4 Link "a") = true <->
   2 < 4).
Proof.
  destruct Index_lt_and_eq as [H1 H2]. split.
  - apply (H1 (mkIndex 7 0 4 Link "a") (mkIndex 7 0 4 Site "c"));
      reflexivity.
  - apply (H2 (mkIndex 7 0 2 Link "a") (mkIndex 7 0 4 Link "a")).
    reflexivity.
Defined.

(** X5: comparing an Index with an IndexVal gives the same answer with
    the operands in either order, namely that of comparing the Index with
    the wrapped Index, whatever the value [val]. *)
Theorem Index_IndexVal_eq_agree (I : Index) (iv : IndexVal) :
  Index_eq_IndexVal I iv = Index_eq I (index iv) /\
  IndexVal_eq_Index iv I = Index_eq I (index iv) /\
  (forall v : Z,
     Index_eq_IndexVal I (mkIndexVal (index iv) v) = Index_eq_IndexVal I iv).
Proof.
  unfold Index_eq_IndexVal, IndexVal_eq_Index, Index_eq.
  rewrite (Z.eqb_sym (id_ I)), (Z.eqb_sym (primelevel_ I)).
  repeat split.
Qed.

(** X6: [operator long()] is [m()]; [operator int()] is [m()] exactly
    when m lies in the range of [int], and lies in that range always. *)
Theorem Index_int_conversion (x : Index) :
  Index_long x = Index_m x /\
  in_int (Index_int x) /\
  (Index_int x = Index_m x <-> in_int (Index_m x)).
Proof.
  unfold Index_long, Index_int. split; [reflexivity|].
  split; [apply wrap_int_in_int|]. split.
  - intros <-. apply wrap_int_in_int.
  - apply wrap_int_id.
Qed.

(** ** Further properties of [Index::prime(int)] *)

Lemma wrap_int_add_l u v : wrap_int (wrap_int u + v) = wrap_int (u + v).
Proof.
  unfold wrap_int. f_equal.
  replace ((u + 2 ^ 31) mod 2 ^ 32 - 2 ^ 31 + v + 2 ^ 31)
    with ((u + 2 ^ 31) mod 2 ^ 32 + v) by lia.
  rewrite Z.add_mod_idemp_l by lia. f_equal. lia.
Qed.

Lemma int_add_assoc p a b :
  int_add (int_add p a) b = int_add p (int_add a b).
Proof.
  unfold int_add. rewrite wrap_int_add_l.
  rewrite (Z.add_comm p (wrap_int (a + b))), wrap_int_add_l.
  f_equal. lia.
Qed.

Lemma int_add_neg_cancel p a :
  in_int p -> int_add (int_add p a) (int_neg a) = p.
Proof.
  intros Hp. unfold int_add, int_neg. rewrite wrap_int_add_l.
  rewrite (Z.add_comm (p + a)), wrap_int_add_l.
  replace (- a + (p + a)) with p by lia. apply wrap_int_id. exact Hp.
Qed.

Lemma int_add_fixed p inc :
  in_int p -> in_int inc -> (int_add p inc = p <-> inc = 0).
Proof.
  unfold in_int, INT_MIN, INT_MAX. intros Hp Hinc. split.
  - unfold int_add, wrap_int. intros H.
    pose proof (Z.div_mod (p + inc + 2 ^ 31) (2 ^ 32) ltac:(lia)) as Hdm.
    set (q := (p + inc + 2 ^ 31) / 2 ^ 32) in *.
    assert (inc = 2 ^ 32 * q) by lia. lia.
  - intros ->. unfold int_add. rewrite Z.add_0_r. apply wrap_int_id.
    unfold in_int, INT_MIN, INT_MAX. lia.
Qed.

Lemma set_primelevel_same x : set_primelevel_ x (primelevel_ x) = x.
Proof. destruct x; reflexivity. Qed.

Lemma get_Index_same_store r h x h0 :
  get_Index r h = Ok (x, h0) -> h0 = h.
Proof.
  unfold get_Index.
  destruct r as [l|l]; destruct (h !! l) as [[?|?]|]; congruence.
Qed.

Lemma Index_prime_Ok_inv DEBUG this inc h r h' :
  Index_prime DEBUG this inc h = Ok (r, h') ->
  exists x, get_Index this h = Ok (x, h).
Proof.
  unfold Index_prime, bind at 1.
  destruct (get_Index this h) as [[x h0]| |] eqn:E; try discriminate.
  intros _. rewrite (get_Index_same_store _ _ _ _ E). eexists; reflexivity.
Qed.

(** X7: without the debug check, [prime(a)] followed by [prime(b)] on
    the same Index is [prime(a + b)] (the sum taken in [int]), and
    [prime(inc)] followed by [prime(-inc)] gives back the store as it
    was. *)
Theorem Index_prime_compose (this : ref) (a b : Z) (h : gmap loc object)
    (x : Index) :
  get_Index this h = Ok (x, h) ->
  (Index_prime false this a ;;; Index_prime false this b) h =
    Index_prime false this (int_add a b) h /\
  (in_int (Index_primeLevel x) ->
   (Index_prime false this a ;;; Index_prime false this (int_neg a)) h =
     Ok (this, h)).
Proof.
  intros Hget.
  assert (Hseq : forall c,
    (Index_prime false this a ;;; Index_prime false this c) h =
    Ok (this,
        updated this
          (set_primelevel_ x (int_add (int_add (primelevel_ x) a) c)) h)).
  { intros c. unfold bind at 1.
    rewrite (Index_prime_run false this a h x Hget). simpl.
    rewrite (Index_prime_run false this c _ _
               (get_Index_updated this x _ h Hget)). simpl.
    rewrite updated_updated. reflexivity. }
  split.
  - rewrite Hseq, (Index_prime_run false this _ h x Hget). simpl.
    rewrite int_add_assoc. reflexivity.
  - intros Hp. rewrite Hseq, int_add_neg_cancel by exact Hp.
    rewrite set_primelevel_same, (updated_same this x h Hget). reflexivity.
Qed.

Lemma Index_prime_compose_witness :
  let h : gmap loc object := {[ 1%positive := OIndex (mkIndex 7 0 4 Link "i") ]} in
  (Index_prime false (Obj 1%positive) 3 ;;;
   Index_prime false (Obj 1%positive) (int_neg 3)) h =
  Ok (Obj 1%positive, h).
Proof.
  intros h.
  destruct (Index_prime_compose (Obj 1%positive) 3 0 h
              (mkIndex 7 0 4 Link "i") eq_refl) as [_ H].
  apply H. unfold in_int, INT_MIN, INT_MAX. simpl. lia.
Defined.

(** X8: a call of [prime(inc)] that returns leaves [id()], [m()],
    [type()], [rawname()] (the stored name, without prime marks) and the
    boolean value of the Index as they were; the Index stays
    [noprimeEquals] to its former value, and, for prime level and [inc]
    in the range of [int], stays [==] to it only for [inc == 0]. *)
Theorem Index_prime_keeps_identity (DEBUG : bool) (this : ref) (inc : Z)
    (h : gmap loc object) (x : Index) (r : ref) (h' : gmap loc object) :
  get_Index this h = Ok (x, h) ->
  Index_prime DEBUG this inc h = Ok (r, h') ->
  exists x' : Index,
    get_Index this h' = Ok (x', h') /\
    Index_id x' = Index_id x /\
    Index_m x' = Index_m x /\
    Index_type x' = Index_type x /\
    Index_rawname x' = Index_rawname x /\
    Index_bool x' = Index_bool x /\
    Index_noprimeEquals x x' = true /\
    (in_int (Index_primeLevel x) -> in_int inc ->
     (Index_eq x x' = true <-> inc = 0)).
Proof.
  intros Hget Hrun.
  rewrite (Index_prime_run DEBUG this inc h x Hget) in Hrun. cbv zeta in Hrun.
  destruct (DEBUG && _) in Hrun; [discriminate|].
  injection Hrun as <- <-.
  exists (set_primelevel_ x (int_add (primelevel_ x) inc)).
  split; [exact (get_Index_updated this x _ h Hget)|].
  unfold Index_id, Index_m, Index_type, Index_rawname, Index_bool,
    Index_noprimeEquals, Index_eq, Index_primeLevel. simpl.
  rewrite Z.eqb_refl. simpl. do 6 (split; [reflexivity|]).
  intros Hp Hinc. rewrite Z.eqb_eq. split.
  - intros Heq. symmetry in Heq. apply int_add_fixed in Heq; assumption.
  - intros Hz. symmetry. apply int_add_fixed; assumption.
Qed.

Lemma Index_prime_keeps_identity_witness :
  let x := mkIndex 7 0 4 Link "i" in
  let h : gmap loc object := {[ 1%positive := OIndex x ]} in
  exists x' : Index,
    get_Index (Obj 1%positive) (<[ 1%positive := OIndex (mkIndex 7 1 4 Link "i") ]> h)
      = Ok (x', <[ 1%positive := OIndex (mkIndex 7 1 4 Link "i") ]> h) /\
    Index_noprimeEquals x x' = true.
Proof.
  intros x h.
  destruct (Index_prime_keeps_identity true (Obj 1%positive) 1 h x
              (Obj 1%positive)
              (<[ 1%positive := OIndex (mkIndex 7 1 4 Link "i") ]> h)
              eq_refl eq_refl)
    as (x' & Hg & _ & _ & _ & _ & _ & Hn & _).
  exists x'. split; assumption.
Defined.

Lemma dom_updated r x y h :
  get_Index r h = Ok (x, h) -> dom (updated r y h) = dom h.
Proof.
  unfold get_Index, updated.
  destruct r as [l|l]; destruct (h !! l) as [[?|?]|] eqn:E; try discriminate;
    intros _; apply dom_insert_lookup_L; rewrite E; eexists; reflexivity.
Qed.

(** X9: a call of [prime(inc)] on one Index changes no other object of
    the store and creates or destroys none; on the member [index] of an
    IndexVal it leaves the member [val] as it was. *)
Theorem Index_prime_frame (DEBUG : bool) (this : ref) (inc : Z)
    (h : gmap loc object) (r : ref) (h' : gmap loc object) :
  Index_prime DEBUG this inc h = Ok (r, h') ->
  (forall l : loc, l <> object_of this -> h' !! l = h !! l) /\
  dom h' = dom h /\
  (forall (l : loc) (iv : IndexVal),
     this = Member_index l -> h !! l = Some (OIndexVal iv) ->
     exists x' : Index, h' !! l = Some (OIndexVal (mkIndexVal x' (val iv)))).
Proof.
  intros Hrun.
  destruct (Index_prime_Ok_inv DEBUG this inc h r h' Hrun) as [x Hget].
  rewrite (Index_prime_run DEBUG this inc h x Hget) in Hrun. cbv zeta in Hrun.
  destruct (DEBUG && _) in Hrun; [discriminate|].
  injection Hrun as <- <-. split; [|split].
  - intros l Hl. apply updated_frame. exact Hl.
  - exact (dom_updated this x _ h Hget).
  - intros l iv -> Hl. rewrite (updated_Member l h iv _ Hl).
    eexists. apply lookup_insert_eq.
Qed.

Lemma Index_prime_frame_witness :
  let h : gmap loc object :=
    {[ 1%positive := OIndex (mkIndex 7 0 4 Link "i");
       2%positive := OIndex (mkIndex 7 0 4 Link "i") ]} in
  (<[ 1%positive := OIndex (mkIndex 7 1 4 Link "i") ]> h) !! 2%positive =
  h !! 2%positive.
Proof.
  intros h.
  destruct (Index_prime_frame false (Obj 1%positive) 1 h (Obj 1%positive)
              (<[ 1%positive := OIndex (mkIndex 7 1 4 Link "i") ]> h) eq_refl)
    as (H & _ & _).
  apply H. discriminate.
Defined.

(** X10: with the debug check, a call of [prime(inc)] that returns has
    done what the call without the check does and has left a prime level
    that is not negative; a call that ends in [Error] has the message
    "Negative primeLevel"; without the check [prime(inc)] never ends in
    [Error]. *)
Theorem Index_prime_debug_refines :
  (forall (this : ref) (inc : Z) (h : gmap loc object) (r : ref)
          (h' : gmap loc object),
     Index_prime true this inc h = Ok (r, h') ->
     r = this /\
     Index_prime false this inc h = Ok (r, h') /\
     exists x' : Index,
       get_Index this h' = Ok (x', h') /\ 0 <= Index_primeLevel x') /\
  (forall (this : ref) (inc : Z) (h : gmap loc object) (msg : string),
     Index_prime true this inc h = Fatal msg ->
     msg = "Negative primeLevel"%string /\
     exists (x' : Index) (h' : gmap loc object),
       Index_prime false this inc h = Ok (this, h') /\
       get_Index this h' = Ok (x', h') /\ Index_primeLevel x' < 0) /\
  (forall (this : ref) (inc : Z) (h : gmap loc object) (msg : string),
     Index_prime false this inc h <> Fatal msg).
Proof.
  split; [|split].
  - intros this inc h r h' Hrun.
    destruct (Index_prime_Ok_inv true this inc h r h' Hrun) as [x Hget].
    rewrite (Index_prime_run false this inc h x Hget).
    rewrite (Index_prime_run true this inc h x Hget) in Hrun.
    cbv zeta in *. simpl in Hrun.
    destruct (Z.ltb_spec (int_add (primelevel_ x) inc) 0) as [Hn|Hn];
      [discriminate|].
    injection Hrun as <- <-. split; [reflexivity|]. split; [reflexivity|].
    eexists. split; [exact (get_Index_updated this x _ h Hget)|].
    exact Hn.
  - intros this inc h msg Hrun.
    destruct (get_Index this h) as [[x h0]| |] eqn:Hget.
    + pose proof (get_Index_same_store _ _ _ _ Hget) as ->.
      rewrite (Index_prime_run false this inc h x Hget).
      rewrite (Index_prime_run true this inc h x Hget) in Hrun.
      cbv zeta in *. simpl in Hrun.
      destruct (Z.ltb_spec (int_add (primelevel_ x) inc) 0) as [Hn|Hn];
        [|discriminate].
      injection Hrun as <-. split; [reflexivity|].
      eexists. eexists. split; [reflexivity|].
      split; [exact (get_Index_updated this x _ h Hget)|]. exact Hn.
    + unfold Index_prime, bind at 1 in Hrun. rewrite Hget in Hrun.
      unfold get_Index in Hget.
      destruct this as [l|l]; destruct (h !! l) as [[?|?]|]; discriminate.
    + unfold Index_prime, bind at 1 in Hrun. rewrite Hget in Hrun.
      discriminate.
  - intros this inc h msg Hrun.
    destruct (get_Index this h) as [[x h0]| |] eqn:Hget.
    + pose proof (get_Index_same_store _ _ _ _ Hget) as ->.
      rewrite (Index_prime_run false this inc h x Hget) in Hrun.
      discriminate.
    + unfold get_Index in Hget.
      destruct this as [l|l]; destruct (h !! l) as [[?|?]|]; discriminate.
    + unfold Index_prime, bind at 1 in Hrun. rewrite Hget in Hrun.
      discriminate.
Qed.

Lemma Index_prime_debug_refines_witness :
  let h : gmap loc object := {[ 1%positive := OIndex (mkIndex 7 0 4 Link "i") ]} in
  Index_prime true (Obj 1%positive) (-1) h = Fatal "Negative primeLevel" /\
  exists (x' : Index) (h' : gmap loc object),
    Index_prime false (Obj 1%positive) (-1) h = Ok (Obj 1%positive, h') /\
    get_Index (Obj 1%positive) h' = Ok (x', h') /\ Index_primeLevel x' < 0.
Proof.
  intros h. split; [reflexivity|].
  destruct Index_prime_debug_refines as (_ & H & _).
  apply (H (Obj 1%positive) (-1) h "Negative primeLevel"%string eq_refl).
Defined.

(** ** [IndexVal::prime(int)] *)

(** X11: [IndexVal::prime(inc)] adds [inc] to the prime level of the
    wrapped Index and returns [*this]; [val], [m()], the boolean value
    and the id of the IndexVal stay as they were; with the debug check
    it ends in [Error] exactly when the new prime level is negative. *)
Theorem IndexVal_prime_delegates (DEBUG : bool) (this : loc) (inc : Z)
    (h : gmap loc object) (iv : IndexVal) :
  h !! this = Some (OIndexVal iv) ->
  let i' := mkIndex (id_ (index iv))
                    (int_add (primelevel_ (index iv)) inc)
                    (m_ (index iv)) (type_ (index iv)) (sname_ (index iv)) in
  let iv' := mkIndexVal i' (val iv) in
  IndexVal_prime DEBUG this inc h =
    (if DEBUG && (Index_primeLevel i' <? 0)
     then Fatal "Negative primeLevel"
     else Ok (this, <[this := OIndexVal iv']> h)) /\
  IndexVal_m iv' = IndexVal_m iv /\
  IndexVal_bool iv' = IndexVal_bool iv /\
  (forall I : Index,
     Index_noprimeEquals I (index iv') = Index_noprimeEquals I (index iv)).
Proof.
  intros Hl. cbv zeta. split; [|repeat split].
  unfold IndexVal_prime, bind.
  rewrite (Index_prime_run DEBUG _ inc h _ (get_Index_Member _ _ _ Hl)).
  cbv zeta. unfold Index_primeLevel. simpl.
  destruct (DEBUG && _); [reflexivity|].
  rewrite Hl. reflexivity.
Qed.

Lemma IndexVal_prime_delegates_witness :
  let iv := mkIndexVal (mkIndex 7 0 4 Link "i") 3 in
  let h : gmap loc object := {[ 1%positive := OIndexVal iv ]} in
  IndexVal_prime true 1%positive 2 h =
    Ok (1%positive,
        <[ 1%positive := OIndexVal (mkIndexVal (mkIndex 7 2 4 Link "i") 3) ]> h).
Proof.
  intros iv h.
  destruct (IndexVal_prime_delegates true 1%positive 2 h iv eq_refl)
    as (H & _).
  exact H.
Defined.

(** ** Further properties of the free function [prime] *)

(** X12: for an Index and for an IndexVal: without the debug check
    [prime(prime(I, a), b)] is [prime(I, a + b)] (the sum taken in [int])
    and [prime(prime(I, inc), -inc)] is [I]; with the debug check, when
    [prime(prime(I, a), b)] returns, [prime(I, a + b)] returns the same
    value. *)
Theorem prime_free_compose (h : gmap loc object) :
  (forall (i : Index) (a b : Z),
     (j <-- prime false i a ;; prime false j b) h =
     prime false i (int_add a b) h) /\
  (forall (i : Index) (inc : Z),
     in_int (Index_primeLevel i) ->
     (j <-- prime false i inc ;; prime false j (int_neg inc)) h = Ok (i, h)) /\
  (forall (iv : IndexVal) (a b : Z),
     (j <-- prime false iv a ;; prime false j b) h =
     prime false iv (int_add a b) h) /\
  (forall (iv : IndexVal) (inc : Z),
     in_int (Index_primeLevel (index iv)) ->
     (j <-- prime false iv inc ;; prime false j (int_neg inc)) h =
     Ok (iv, h)) /\
  (forall (i k : Index) (a b : Z) (h' : gmap loc object),
     (j <-- prime true i a ;; prime true j b) h = Ok (k, h') ->
     prime true i (int_add a b) h = Ok (k, h')) /\
  (forall (iv kv : IndexVal) (a b : Z) (h' : gmap loc object),
     (j <-- prime true iv a ;; prime true j b) h = Ok (kv, h') ->
     prime true iv (int_add a b) h = Ok (kv, h')).
Proof.
  split; [|split; [|split; [|split; [|split]]]].
  - intros i a b. unfold bind. rewrite !prime_Index.
    unfold by_value, prime_value. simpl. rewrite prime_Index.
    unfold by_value, prime_value, set_primelevel_. simpl.
    rewrite int_add_assoc. reflexivity.
  - intros i inc Hp. unfold bind. rewrite prime_Index.
    unfold by_value, prime_value. simpl. rewrite prime_Index.
    unfold by_value, prime_value, set_primelevel_. simpl.
    rewrite int_add_neg_cancel by exact Hp. destruct i; reflexivity.
  - intros iv a b. unfold bind. rewrite !prime_IndexVal.
    unfold by_value, on_index, prime_value. simpl. rewrite prime_IndexVal.
    unfold by_value, on_index, prime_value, set_primelevel_. simpl.
    rewrite int_add_assoc. reflexivity.
  - intros iv inc Hp. unfold bind. rewrite prime_IndexVal.
    unfold by_value, on_index, prime_value. simpl. rewrite prime_IndexVal.
    unfold by_value, on_index, prime_value, set_primelevel_. simpl.
    rewrite int_add_neg_cancel by exact Hp.
    destruct iv as [[? ? ? ? ?] ?]; reflexivity.
  - intros i k a b h'. unfold bind. rewrite !prime_Index.
    unfold by_value, prime_value. simpl.
    destruct (int_add (primelevel_ i) a <? 0); [discriminate|].
    rewrite prime_Index. unfold by_value, prime_value, set_primelevel_.
    simpl. rewrite int_add_assoc.
    destruct (int_add (primelevel_ i) (int_add a b) <? 0);
      [discriminate | exact (fun H => H)].
  - intros iv kv a b h'. unfold bind. rewrite !prime_IndexVal.
    unfold by_value, on_index, prime_value. simpl.
    destruct (int_add (primelevel_ (index iv)) a <? 0); [discriminate|].
    rewrite prime_IndexVal.
    unfold by_value, on_index, prime_value, set_primelevel_.
    simpl. rewrite int_add_assoc.
    destruct (int_add (primelevel_ (index iv)) (int_add a b) <? 0);
      [discriminate | exact (fun H => H)].
Qed.

Lemma prime_free_compose_witness :
  let i := mkIndex 7 0 4 Link "i" in
  (j <-- prime false i 5 ;; prime false j (int_neg 5)) ∅ = Ok (i, ∅) /\
  prime true (mkIndexVal i 3) (int_add 1 1) ∅ =
    Ok (mkIndexVal (mkIndex 7 2 4 Link "i") 3, ∅).
Proof.
  intros i.
  destruct (prime_free_compose ∅) as (_ & H & _ & _ & _ & Hv).
  split.
  - apply H. unfold in_int, INT_MIN, INT_MAX. simpl. lia.
  - apply (Hv (mkIndexVal i 3) (mkIndexVal (mkIndex 7 2 4 Link "i") 3) 1 1 ∅).
    vm_compute. reflexivity.
Defined.

(** ** Further properties of the named constructor *)

(** X13: the named constructor stores its arguments and the id that the
    generator gives, and advances the generator by one step; two Index
    values built one after the other are [noprimeEquals] exactly when the
    generator gave the same id twice, whatever their names, dimensions,
    types and prime levels, so they are not [==] when the ids differ. *)
Theorem Index_ctor_fresh_identity (G : Type) (rng : G -> Z * G)
    (DEBUG : bool) (n1 n2 : string) (m1 m2 : Z) (t1 t2 : IndexType)
    (p1 p2 : Z) (g g1 g2 : G) (x y : Index) :
  Index_ctor rng DEBUG n1 m1 t1 p1 g = Ok (x, g1) ->
  Index_ctor rng DEBUG n2 m2 t2 p2 g1 = Ok (y, g2) ->
  x = mkIndex (fst (rng g)) p1 m1 t1 n1 /\
  g1 = snd (rng g) /\
  y = mkIndex (fst (rng g1)) p2 m2 t2 n2 /\
  g2 = snd (rng g1) /\
  (Index_noprimeEquals x y = true <-> fst (rng g) = fst (rng g1)) /\
  (fst (rng g) <> fst (rng g1) -> Index_eq x y = false).
Proof.
  unfold Index_ctor, generateID.
  destruct (rng g) as [i1 g1'] eqn:E1. destruct (rng g1) as [i2 g2'] eqn:E2.
  simpl.
  destruct (DEBUG && bool_decide (t1 = All)); [discriminate|].
  destruct (DEBUG && bool_decide (t1 = NullIndex)); [discriminate|].
  destruct (DEBUG && bool_decide (t2 = All)); [discriminate|].
  destruct (DEBUG && bool_decide (t2 = NullIndex)); [discriminate|].
  intros [= <- <-] [= <- <-].
  unfold Index_noprimeEquals, Index_eq. simpl.
  do 4 (split; [reflexivity|]). split.
  - apply Z.eqb_eq.
  - intros Hne. apply andb_false_iff. left. apply Z.eqb_neq. exact Hne.
Qed.

Lemma Index_ctor_fresh_identity_witness :
  Index_eq (mkIndex 0 0 4 Link "i") (mkIndex 1 0 4 Link "i") = false.
Proof.
  destruct (Index_ctor_fresh_identity Z (fun n : Z => (n, n + 1)) true
              "i" "i" 4 4 Link Link 0 0 0 1 2
              (mkIndex 0 0 4 Link "i") (mkIndex 1 0 4 Link "i")
              eq_refl eq_refl) as (_ & _ & _ & _ & _ & H).
  apply H. simpl. discriminate.
Defined.

(** X14: for every type other than [All] and [NullIndex] the named
    constructor with the debug checks builds the Index that it builds
    without them. *)
Theorem Index_ctor_debug_agrees (G : Type) (rng : G -> Z * G)
    (name : string) (m : Z) (type : IndexType) (plev : Z) (g : G) :
  type <> All -> type <> NullIndex ->
  Index_ctor rng true name m type plev g =
  Index_ctor rng false name m type plev g.
Proof.
  intros HAll HNull. unfold Index_ctor, generateID.
  destruct (rng g) as [id g']. simpl.
  rewrite !bool_decide_eq_false_2 by assumption. reflexivity.
Qed.

Lemma Index_ctor_debug_agrees_witness :
  Index_ctor (fun n : Z => (n, n + 1)) true "s" 2 Site 0 5 =
  Index_ctor (fun n : Z => (n, n + 1)) false "s" 2 Site 0 5.
Proof.
  apply Index_ctor_debug_agrees; discriminate.
Defined.

(** ** The free functions [dag] *)

(** X15: [dag(I)] returns a copy equal to its argument, for an Index
    and for an IndexVal, and leaves the store as it was; the member
    [dag()] changes nothing. *)
Theorem dag_is_identity (h : gmap loc object) :
  (forall i : Index, dag_Index i h = Ok (i, h)) /\
  (forall iv : IndexVal, dag_IndexVal iv h = Ok (iv, h)) /\
  (forall this : ref, Index_dag this h = Ok (tt, h)) /\
  (forall this : loc, IndexVal_dag this h = Ok (tt, h)).
Proof.
  split; [|split; [|split]].
  - intros i.
    refine (@by_value_call Index PrimeLevel_Index (fun _ => eq_refl)
              (fun l => Index_dag (Obj l)) Ok i h _).
    intros l h0 v Hl. unfold Index_dag, ret.
    rewrite insert_id by exact Hl. reflexivity.
  - intros iv.
    refine (@by_value_call IndexVal PrimeLevel_IndexVal (fun _ => eq_refl)
              (fun l => IndexVal_dag l) Ok iv h _).
    intros l h0 v Hl. unfold IndexVal_dag, ret.
    rewrite insert_id by exact Hl. reflexivity.
  - reflexivity.
  - reflexivity.
Qed.

(** X16: raising the prime level moves an Index up in the order of
    [operator<].  For [inc > 0] and a new prime level primeLevel + inc in
    the range of [int]: without the debug check [prime(I, inc)] returns
    the Index [J] with that prime level; with the debug check it returns
    [J] when the new level is not negative and ends in [Error] when it
    is; [I < J], [J > I] and not [J < I]; so in either build, what
    [prime(I, inc)] returns is above [I]. *)
Theorem prime_increases_order (h : gmap loc object) (i : Index) (inc : Z) :
  0 < inc -> in_int (Index_primeLevel i + inc) ->
  let j := mkIndex (id_ i) (Index_primeLevel i + inc) (m_ i) (type_ i)
                   (sname_ i) in
  prime false i inc h = Ok (j, h) /\
  prime true i inc h =
    (if Index_primeLevel i + inc <? 0 then Fatal "Negative primeLevel"
     else Ok (j, h)) /\
  Index_lt i j = true /\
  Index_gt j i = true /\
  Index_lt j i = false /\
  (forall (DEBUG : bool) (k : Index) (h' : gmap loc object),
     prime DEBUG i inc h = Ok (k, h') ->
     k = j /\ h' = h /\ Index_lt i k = true /\ Index_gt k i = true /\
     Index_lt k i = false).
Proof.
  intros Hinc Hin j.
  assert (Hrun : forall DEBUG,
            prime DEBUG i inc h =
            if DEBUG && (Index_primeLevel i + inc <? 0)
            then Fatal "Negative primeLevel" else Ok (j, h)).
  { intros DEBUG. rewrite prime_Index. unfold by_value, prime_value.
    unfold Index_primeLevel in *. simpl.
    rewrite (int_add_exact _ _ Hin).
    destruct (DEBUG && _); reflexivity. }
  assert (Hlt : Index_lt i j = true).
  { apply Index_lt_spec. unfold key_lt, sort_key, j, Index_primeLevel.
    simpl. lia. }
  assert (Hgt : Index_gt j i = true).
  { rewrite Index_gt_mirror. exact Hlt. }
  assert (Hnlt : Index_lt j i = false).
  { apply Index_lt_asym. exact Hlt. }
  split; [exact (Hrun false)|]. split; [exact (Hrun true)|].
  split; [exact Hlt|]. split; [exact Hgt|]. split; [exact Hnlt|].
  intros DEBUG k h' Hk. rewrite Hrun in Hk.
  destruct (DEBUG && _) in Hk; [discriminate|].
  injection Hk as <- <-. repeat split; assumption.
Qed.

Lemma prime_increases_order_witness :
  prime true (mkIndex 7 0 4 Link "i") 1 ∅ =
    Ok (mkIndex 7 1 4 Link "i", ∅) /\
  Index_lt (mkIndex 7 0 4 Link "i") (mkIndex 7 1 4 Link "i") = true /\
  prime true (mkIndex 7 (-5) 4 Link "i") 2 ∅ = Fatal "Negative primeLevel".
Proof.
  assert (H0 : in_int (Index_primeLevel (mkIndex 7 0 4 Link "i") + 1)).
  { unfold in_int, INT_MIN, INT_MAX. simpl. lia. }
  assert (H5 : in_int (Index_primeLevel (mkIndex 7 (-5) 4 Link "i") + 2)).
  { unfold in_int, INT_MIN, INT_MAX. simpl. lia. }
  destruct (prime_increases_order ∅ (mkIndex 7 0 4 Link "i") 1
              ltac:(lia) H0) as (_ & Ht & Hlt & _).
  destruct (prime_increases_order ∅ (mkIndex 7 (-5) 4 Link "i") 2
              ltac:(lia) H5) as (_ & Hf & _).
  split; [exact Ht|]. split; [exact Hlt|]. exact Hf.
Defined.
